(** * Option strategy builder: payoff engine, breakeven finder, validator

    A shallow embedding of the computational core of [app.py]
    ([validate_inputs], [calculate_bull_call_spread_payoff],
    [calculate_iron_condor_payoff], [find_breakeven_points] and the
    reductions of [display_summary]) together with the properties the
    specification states about it.

    Numbers.  The program computes on floats; the specification speaks of
    real numbers.  Prices, premiums and payoffs are modelled as exact
    rationals [Q], compared with [==]; the lot size is a Python [int],
    modelled as [Z] and injected with [inject_Z].  A one-dimensional
    [numpy] array is a [list Q]. *)

From Stdlib Require Import String.
From Stdlib Require Import QArith Qabs Qminmax Qround ZArith List Bool Lia Lqa.
From Stdlib Require Import SetoidList.
Import ListNotations.

Local Open Scope Q_scope.

(** ** Arrays and broadcasting *)

Module Np.

Definition ndarray := list Q.

(** [a - c] with a scalar [c]. *)
Definition sub_scalar (a : ndarray) (c : Q) : ndarray :=
  map (fun x => x - c) a.

(** [c - a] with a scalar [c]. *)
Definition rsub_scalar (c : Q) (a : ndarray) : ndarray :=
  map (fun x => c - x) a.

(** [np.maximum(a, c)] with a scalar [c]. *)
Definition maximum (a : ndarray) (c : Q) : ndarray :=
  map (fun x => Qmax x c) a.

(** [a + b] on arrays of one shape. *)
Fixpoint add (a b : ndarray) : ndarray :=
  match a, b with
  | x :: a', y :: b' => (x + y) :: add a' b'
  | _, _ => []
  end.

(** [a * k] with a Python [int] [k]. *)
Definition mul_int (a : ndarray) (k : Z) : ndarray :=
  map (fun x => x * inject_Z k) a.

(** Pointwise [==] on arrays. *)
Definition eq (a b : ndarray) : Prop := Forall2 Qeq a b.

(** [np.linspace(start, stop, num)] with the end point included: [num - 1]
    equal steps from [start], the last sample set to [stop] itself; one
    sample is [start] alone. *)
Definition linspace (start stop : Q) (num : nat) : ndarray :=
  match num with
  | O => []
  | S O => [start]
  | S div =>
      let step := (stop - start) / inject_Z (Z.of_nat div) in
      (map (fun i => inject_Z (Z.of_nat i) * step + start) (seq 0 div)
       ++ [stop])%list
  end.

(** [np.any(a > 0)] *)
Definition any_positive (a : ndarray) : bool :=
  existsb (fun x => negb (Qle_bool x 0)) a.

End Np.

(** ** Payoff engine *)

Definition calculate_bull_call_spread_payoff
    (spot_prices : Np.ndarray)
    (buy_call_strike buy_call_premium sell_call_strike sell_call_premium : Q)
    (lot_size : Z) : Np.ndarray :=
  let buy_call_payoff :=
    Np.sub_scalar (Np.maximum (Np.sub_scalar spot_prices buy_call_strike) 0)
                  buy_call_premium in
  let sell_call_payoff :=
    Np.rsub_scalar sell_call_premium
                   (Np.maximum (Np.sub_scalar spot_prices sell_call_strike) 0) in
  let net_payoff := Np.mul_int (Np.add buy_call_payoff sell_call_payoff) lot_size in
  net_payoff.

Definition calculate_iron_condor_payoff
    (spot_prices : Np.ndarray)
    (buy_put_strike buy_put_premium sell_put_strike sell_put_premium
     sell_call_strike sell_call_premium buy_call_strike buy_call_premium : Q)
    (lot_size : Z) : Np.ndarray :=
  let buy_put_payoff :=
    Np.sub_scalar (Np.maximum (Np.rsub_scalar buy_put_strike spot_prices) 0)
                  buy_put_premium in
  let sell_put_payoff :=
    Np.rsub_scalar sell_put_premium
                   (Np.maximum (Np.rsub_scalar sell_put_strike spot_prices) 0) in
  let put_spread_payoff := Np.add buy_put_payoff sell_put_payoff in
  let buy_call_payoff :=
    Np.sub_scalar (Np.maximum (Np.sub_scalar spot_prices buy_call_strike) 0)
                  buy_call_premium in
  let sell_call_payoff :=
    Np.rsub_scalar sell_call_premium
                   (Np.maximum (Np.sub_scalar spot_prices sell_call_strike) 0) in
  let call_spread_payoff := Np.add buy_call_payoff sell_call_payoff in
  let net_payoff :=
    Np.mul_int (Np.add put_spread_payoff call_spread_payoff) lot_size in
  net_payoff.

(** The payoff of one grid point, with the legs grouped as the source
    groups them. *)
Definition bull_call_point (K1 P1 K2 P2 : Q) (lot : Z) (S : Q) : Q :=
  ((Qmax (S - K1) 0 - P1) + (P2 - Qmax (S - K2) 0)) * inject_Z lot.

Definition iron_condor_point
    (Kbp Pbp Ksp Psp Ksc Psc Kbc Pbc : Q) (lot : Z) (S : Q) : Q :=
  (((Qmax (Kbp - S) 0 - Pbp) + (Psp - Qmax (Ksp - S) 0))
   + ((Qmax (S - Kbc) 0 - Pbc) + (Psc - Qmax (S - Ksc) 0))) * inject_Z lot.

(** ** Input validator *)

(** The Streamlit page, as far as the core writes to it: the messages shown
    by [st.error], oldest first. *)
Module St.
Definition page := list string.
Definition error (msg : string) (p : page) : page := (p ++ [msg])%list.
End St.

(** The objects [validate_inputs] can reach: the two Python lists it is
    handed (mutable objects in the source) and the page. *)
Record env := mk_env {
  premiums : list Q;
  strikes : list Q;
  page : St.page
}.

Definition any_nonpositive (ps : list Q) : bool :=
  existsb (fun premium => Qle_bool premium 0) ps.

(** [all(strikes[i] <= strikes[i+1] for i in range(len(strikes)-1))]; the
    indices stay below [len(strikes)], so the default of [nth] is never
    returned. *)
Definition all_ascending (ks : list Q) : bool :=
  forallb (fun i => Qle_bool (nth i ks 0) (nth (i + 1) ks 0))
          (seq 0 (length ks - 1)).

Definition validate_inputs (e : env) : bool * env :=
  if any_nonpositive (premiums e) then
    (false,
     mk_env (premiums e) (strikes e)
            (St.error "All premiums must be positive values."%string (page e)))
  else if (1 <? length (strikes e))%nat && negb (all_ascending (strikes e)) then
    (false,
     mk_env (premiums e) (strikes e)
            (St.error "Strike prices must be in ascending order."%string (page e)))
  else (true, e).

(** The verdict alone, on a fresh page. *)
Definition validate (ps ks : list Q) : bool :=
  fst (validate_inputs (mk_env ps ks [])).

(** ** Run-time failures *)

(** What can go wrong in the code below: an index outside an array, a
    division whose divisor is zero (numpy reports it and yields [inf] or
    [nan]; the model stops there), and a reduction of an empty array. *)
Inductive exn := IndexError | DivideByZero | ValueError.

Inductive result (A : Type) :=
| Ok (a : A)
| Raise (e : exn).
Arguments Ok {A} a.
Arguments Raise {A} e.

Definition bind {A B} (m : result A) (k : A -> result B) : result B :=
  match m with
  | Ok a => k a
  | Raise e => Raise e
  end.

Notation "x <- m ;; k" := (bind m (fun x => k))
  (at level 61, m at next level, right associativity).

(** [a[i]] *)
Definition getitem (a : Np.ndarray) (i : nat) : result Q :=
  match nth_error a i with
  | Some x => Ok x
  | None => Raise IndexError
  end.

(** [x / y] *)
Definition divide (x y : Q) : result Q :=
  if Qeq_bool y 0 then Raise DivideByZero else Ok (x / y).

(** Python's short-circuit [and] / [or] over fallible operands. *)
Definition and_then (a b : result bool) : result bool :=
  x <- a ;; if x then b else Ok false.

Definition or_else (a b : result bool) : result bool :=
  x <- a ;; if x then Ok true else b.

Definition le0 (m : result Q) : result bool := x <- m ;; Ok (Qle_bool x 0).
Definition ge0 (m : result Q) : result bool := x <- m ;; Ok (Qle_bool 0 x).

Definition Qlt_bool (x y : Q) : bool := negb (Qle_bool y x).

(** ** Rounding to two decimals *)

(** Nearest integer, ties to the even one. *)
Definition rint (x : Q) : Z :=
  let f := Qfloor x in
  match Qcompare (x - inject_Z f) (1 # 2) with
  | Lt => f
  | Gt => (f + 1)%Z
  | Eq => if Z.even f then f else (f + 1)%Z
  end.

(** [round(x, 2)] *)
Definition round2 (x : Q) : Q := inject_Z (rint (x * 100)) / 100.

(** ** Breakeven finder *)

Definition default_tolerance : Q := 1 # 100.

(** The condition of line 84 at segment [i]. *)
Definition sign_change (payoff : Np.ndarray) (i : nat) : result bool :=
  or_else (and_then (le0 (getitem payoff i)) (ge0 (getitem payoff (i + 1))))
          (and_then (ge0 (getitem payoff i)) (le0 (getitem payoff (i + 1)))).

(** The guard of line 86 at segment [i]. *)
Definition slope_exceeds (payoff : Np.ndarray) (tolerance : Q) (i : nat)
  : result bool :=
  p1 <- getitem payoff (i + 1) ;;
  p0 <- getitem payoff i ;;
  Ok (Qlt_bool tolerance (Qabs (p1 - p0))).

(** Lines 87-88 at segment [i]: the breakeven price before rounding. *)
Definition interpolate (payoff spot_prices : Np.ndarray) (i : nat) : result Q :=
  n <- getitem payoff i ;;
  p1 <- getitem payoff (i + 1) ;;
  p0 <- getitem payoff i ;;
  ratio <- divide (Qabs n) (Qabs (p1 - p0)) ;;
  s0 <- getitem spot_prices i ;;
  s1 <- getitem spot_prices (i + 1) ;;
  s0' <- getitem spot_prices i ;;
  Ok (s0 + ratio * (s1 - s0')).

(** One iteration of the loop of line 83: the list after segment [i]. *)
Definition breakeven_step (payoff spot_prices : Np.ndarray) (tolerance : Q)
    (breakeven_points : list Q) (i : nat) : result (list Q) :=
  crossing <- sign_change payoff i ;;
  if crossing then
    steep <- slope_exceeds payoff tolerance i ;;
    if steep then
      breakeven_price <- interpolate payoff spot_prices i ;;
      Ok (breakeven_points ++ [round2 breakeven_price])%list
    else Ok breakeven_points
  else Ok breakeven_points.

(** [for i in range ...: body], threading the list being built. *)
Fixpoint for_each (body : list Q -> nat -> result (list Q))
    (range : list nat) (acc : list Q) : result (list Q) :=
  match range with
  | [] => Ok acc
  | i :: rest => acc' <- body acc i ;; for_each body rest acc'
  end.

(** [list(set(l))]: one representative of each value.  Python leaves the
    order open; the model keeps the order of first occurrence. *)
Fixpoint list_set (l : list Q) : list Q :=
  match l with
  | [] => []
  | x :: l' => x :: filter (fun y => negb (Qeq_bool y x)) (list_set l')
  end.

Definition find_breakeven_points (payoff spot_prices : Np.ndarray)
    (tolerance : Q) : result (list Q) :=
  breakeven_points <-
    for_each (breakeven_step payoff spot_prices tolerance)
             (seq 0 (length payoff - 1)) [] ;;
  Ok (list_set breakeven_points).

(** ** Summary reducer *)

(** [np.max(a)] and [np.min(a)]; both raise on an empty array. *)
Definition np_max (a : Np.ndarray) : result Q :=
  match a with
  | [] => Raise ValueError
  | x :: a' => Ok (fold_left Qmax a' x)
  end.

Definition np_min (a : Np.ndarray) : result Q :=
  match a with
  | [] => Raise ValueError
  | x :: a' => Ok (fold_left Qmin a' x)
  end.

(** The three figures [display_summary] shows. *)
Record summary := mk_summary {
  max_profit : Q;
  max_loss : Q;
  breakevens : list Q
}.

Definition display_summary (payoff : Np.ndarray) (breakeven_points : list Q)
  : result summary :=
  max_profit <- np_max payoff ;;
  max_loss <- np_min payoff ;;
  Ok (mk_summary max_profit max_loss breakeven_points).

(** The colours [display_summary] gives the two metrics (lines 157 and
    164). *)
Definition max_profit_delta_color (s : summary) : string :=
  if negb (Qle_bool (max_profit s) 0) then "normal"%string
  else "inverse"%string.

Definition max_loss_delta_color (s : summary) : string :=
  if negb (Qle_bool 0 (max_loss s)) then "inverse"%string
  else "normal"%string.

(** ** Chart *)

(** What [create_payoff_chart] takes from the data: the two axes of the
    trace and whether the area under it is filled (line 105). *)
Record figure := mk_figure {
  trace_x : Np.ndarray;
  trace_y : Np.ndarray;
  trace_fill : option string
}.

Definition create_payoff_chart (spot_prices payoff : Np.ndarray) : figure :=
  mk_figure spot_prices payoff
            (if Np.any_positive payoff then Some "tonexty"%string else None).

(** ** The two pages *)

(** What a click on the button leaves on the page. *)
Record view := mk_view {
  chart : figure;
  shown : summary
}.

(** Lines 249-271: the button of the Bull Call Spread page.  The answer is
    [Ok None] when the validator refuses the inputs. *)
Definition bull_call_spread_clicked
    (buy_call_strike buy_call_premium sell_call_strike sell_call_premium : Q)
    (lot_size : Z) (pg : St.page) : St.page * result (option view) :=
  let (ok, e) :=
    validate_inputs (mk_env [buy_call_premium; sell_call_premium]
                            [buy_call_strike; sell_call_strike] pg) in
  if ok then
    let spot_prices := Np.linspace 0 5000 1000 in
    let payoff :=
      calculate_bull_call_spread_payoff
        spot_prices buy_call_strike buy_call_premium
        sell_call_strike sell_call_premium lot_size in
    (page e,
     breakeven_points <-
       find_breakeven_points payoff spot_prices default_tolerance ;;
     let fig := create_payoff_chart spot_prices payoff in
     s <- display_summary payoff breakeven_points ;;
     Ok (Some (mk_view fig s)))
  else (page e, Ok None).

(** Lines 365-389: the button of the Iron Condor page. *)
Definition iron_condor_clicked
    (buy_put_strike buy_put_premium sell_put_strike sell_put_premium
     sell_call_strike sell_call_premium buy_call_strike buy_call_premium : Q)
    (lot_size : Z) (pg : St.page) : St.page * result (option view) :=
  let (ok, e) :=
    validate_inputs
      (mk_env [buy_put_premium; sell_put_premium;
               sell_call_premium; buy_call_premium]
              [buy_put_strike; sell_put_strike;
               sell_call_strike; buy_call_strike] pg) in
  if ok then
    let spot_prices := Np.linspace 0 5000 1000 in
    let payoff :=
      calculate_iron_condor_payoff
        spot_prices buy_put_strike buy_put_premium
        sell_put_strike sell_put_premium sell_call_strike
        sell_call_premium buy_call_strike buy_call_premium lot_size in
    (page e,
     breakeven_points <-
       find_breakeven_points payoff spot_prices default_tolerance ;;
     let fig := create_payoff_chart spot_prices payoff in
     s <- display_summary payoff breakeven_points ;;
     Ok (Some (mk_view fig s)))
  else (page e, Ok None).

(** ** Vocabulary of the statements *)

(** Non-decreasing, by adjacent pairs. *)
Definition ascending (a : Np.ndarray) : Prop :=
  forall i, (i + 1 < length a)%nat -> nth i a 0 <= nth (i + 1) a 0.

(** The exact root of the chord of segment [i]. *)
Definition chord_root (payoff spot_prices : Np.ndarray) (i : nat) : Q :=
  nth i spot_prices 0
  + Qabs (nth i payoff 0) / Qabs (nth (i + 1) payoff 0 - nth i payoff 0)
    * (nth (i + 1) spot_prices 0 - nth i spot_prices 0).

(** Line 84 on the two ends of a segment, as a proposition and as the
    boolean the code computes. *)
Definition straddles (p0 p1 : Q) : Prop :=
  (p0 <= 0 /\ 0 <= p1) \/ (0 <= p0 /\ p1 <= 0).

Definition straddles_b (p0 p1 : Q) : bool :=
  (Qle_bool p0 0 && Qle_bool 0 p1) || (Qle_bool 0 p0 && Qle_bool p1 0).

(** The payoff changes sign once, strictly between grid points [i] and
    [i + 1]: one strict sign up to [i], the opposite strict sign after. *)
Definition single_crossing (payoff : Np.ndarray) (i : nat) : Prop :=
  ((forall j, (j <= i)%nat -> nth j payoff 0 < 0)
   /\ (forall j, (i < j < length payoff)%nat -> 0 < nth j payoff 0))
  \/ ((forall j, (j <= i)%nat -> 0 < nth j payoff 0)
      /\ (forall j, (i < j < length payoff)%nat -> nth j payoff 0 < 0)).

(** Segment [i] passes both tests of lines 84 and 86. *)
Definition records (payoff : Np.ndarray) (tolerance : Q) (i : nat) : bool :=
  straddles_b (nth i payoff 0) (nth (i + 1) payoff 0)
  && Qlt_bool tolerance (Qabs (nth (i + 1) payoff 0 - nth i payoff 0)).

(** * Properties *)

(** ** Rational arithmetic used below *)

Lemma Qmax_cases (x y : Q) :
  (x <= y /\ Qmax x y == y) \/ (y <= x /\ Qmax x y == x).
Proof.
  destruct (Q.max_spec x y) as [[H E]|[H E]]; [left|right]; split;
    auto using Qlt_le_weak.
Qed.

(** Replace every [Qmax a b] of the goal by one of its arguments, keeping
    the comparison that justifies the choice. *)
Ltac split_max :=
  repeat match goal with
         | |- context [Qmax ?a ?b] =>
             let H := fresh "Hle" in
             let E := fresh "Emax" in
             destruct (Qmax_cases a b) as [[H E]|[H E]]; rewrite E
         end.

Lemma inject_Z_nonneg (k : Z) : (0 <= k)%Z -> 0 <= inject_Z k.
Proof.
  intros H. change 0 with (inject_Z 0). now rewrite <- Zle_Qle.
Qed.

Lemma Qle_bool_false (x y : Q) : Qle_bool x y = false <-> y < x.
Proof.
  split; intros H.
  - apply Qnot_le_lt. intros C. apply Qle_bool_iff in C. congruence.
  - destruct (Qle_bool x y) eqn:E; [|reflexivity].
    apply Qle_bool_iff in E. exfalso. exact (Qlt_not_le _ _ H E).
Qed.

Lemma Qlt_bool_iff (x y : Q) : Qlt_bool x y = true <-> x < y.
Proof.
  unfold Qlt_bool. rewrite negb_true_iff. apply Qle_bool_false.
Qed.

Lemma Qlt_bool_false (x y : Q) : Qlt_bool x y = false <-> y <= x.
Proof.
  unfold Qlt_bool. rewrite negb_false_iff. apply Qle_bool_iff.
Qed.

(** ** Elementwise form of the two engines *)

Lemma bull_call_as_map spots K1 P1 K2 P2 lot :
  calculate_bull_call_spread_payoff spots K1 P1 K2 P2 lot
  = map (bull_call_point K1 P1 K2 P2 lot) spots.
Proof.
  unfold calculate_bull_call_spread_payoff, Np.mul_int, Np.sub_scalar,
    Np.rsub_scalar, Np.maximum.
  induction spots as [|S spots IH]; simpl; [reflexivity|].
  now rewrite IH.
Qed.

Lemma iron_condor_as_map spots Kbp Pbp Ksp Psp Ksc Psc Kbc Pbc lot :
  calculate_iron_condor_payoff spots Kbp Pbp Ksp Psp Ksc Psc Kbc Pbc lot
  = map (iron_condor_point Kbp Pbp Ksp Psp Ksc Psc Kbc Pbc lot) spots.
Proof.
  unfold calculate_iron_condor_payoff, Np.mul_int, Np.sub_scalar,
    Np.rsub_scalar, Np.maximum.
  induction spots as [|S spots IH]; simpl; [reflexivity|].
  now rewrite IH.
Qed.

Lemma Forall2_map_pointwise {A B} (R : A -> B -> Prop) (f : A -> B) l :
  (forall x, In x l -> R x (f x)) -> Forall2 R l (map f l).
Proof.
  induction l as [|x l IH]; intros H; simpl; constructor.
  - apply H. now left.
  - apply IH. intros y Hy. apply H. now right.
Qed.

Lemma Forall2_maps {A B C} (R : B -> C -> Prop) (f : A -> B) (g : A -> C) l :
  (forall x, R (f x) (g x)) -> Forall2 R (map f l) (map g l).
Proof.
  intros H. induction l; simpl; constructor; auto.
Qed.

(** C1: the Bull Call Spread payoff vector is, point by point, the value of
    [(max(S - buyCallStrike, 0) - buyCallPremium + sellCallPremium
      - max(S - sellCallStrike, 0)) * lotSize]
    at the spot price [S] of the same position, for every grid and every
    choice of the parameters. *)
Theorem bull_call_payoff_elementwise spots K1 P1 K2 P2 lot :
  Np.eq (calculate_bull_call_spread_payoff spots K1 P1 K2 P2 lot)
        (map (fun S => (Qmax (S - K1) 0 - P1 + P2 - Qmax (S - K2) 0)
                       * inject_Z lot) spots).
Proof.
  rewrite bull_call_as_map. apply Forall2_maps.
  intros S. unfold bull_call_point. ring.
Qed.

(** ** Bounds of the Bull Call Spread *)

Lemma bull_call_point_bounds K1 P1 K2 P2 lot S :
  K1 <= K2 -> (0 <= lot)%Z ->
  - (P1 - P2) * inject_Z lot <= bull_call_point K1 P1 K2 P2 lot S
  /\ bull_call_point K1 P1 K2 P2 lot S <= (K2 - K1 - (P1 - P2)) * inject_Z lot.
Proof.
  intros HK Hlot. apply inject_Z_nonneg in Hlot.
  unfold bull_call_point.
  split; apply Qmult_le_compat_r; trivial; split_max; lra.
Qed.

(** ** The flat top of the Iron Condor *)

Lemma iron_condor_point_le_top Kbp Pbp Ksp Psp Ksc Psc Kbc Pbc lot S :
  Kbp <= Ksp -> Ksc <= Kbc -> (0 <= lot)%Z ->
  iron_condor_point Kbp Pbp Ksp Psp Ksc Psc Kbc Pbc lot S
  <= (Psp - Pbp + Psc - Pbc) * inject_Z lot.
Proof.
  intros Hput Hcall Hlot. apply inject_Z_nonneg in Hlot.
  unfold iron_condor_point.
  apply Qmult_le_compat_r; trivial; split_max; lra.
Qed.

Lemma iron_condor_point_on_top Kbp Pbp Ksp Psp Ksc Psc Kbc Pbc lot S :
  Kbp <= Ksp -> Ksc <= Kbc -> Ksp < S -> S < Ksc ->
  iron_condor_point Kbp Pbp Ksp Psp Ksc Psc Kbc Pbc lot S
  == (Psp - Pbp + Psc - Pbc) * inject_Z lot.
Proof.
  intros Hput Hcall Hlo Hhi.
  unfold iron_condor_point.
  apply Qmult_comp; [|reflexivity]. split_max; lra.
Qed.

(** ** The validator *)

Lemma any_nonpositive_true ps :
  any_nonpositive ps = true <-> exists p, In p ps /\ p <= 0.
Proof.
  unfold any_nonpositive. rewrite existsb_exists.
  split; intros [p [Hin Hp]]; exists p; split; trivial;
    now apply Qle_bool_iff.
Qed.

Lemma any_nonpositive_false ps :
  any_nonpositive ps = false <-> forall p, In p ps -> 0 < p.
Proof.
  rewrite <- not_true_iff_false, any_nonpositive_true. split.
  - intros H p Hin. apply Qnot_le_lt. intros Hp. apply H. now exists p.
  - intros H [p [Hin Hp]]. exact (Qlt_not_le _ _ (H p Hin) Hp).
Qed.

Lemma all_ascending_true ks : all_ascending ks = true <-> ascending ks.
Proof.
  unfold all_ascending, ascending. rewrite forallb_forall. split.
  - intros H i Hi. apply Qle_bool_iff, H, in_seq. lia.
  - intros H i Hi. apply in_seq in Hi. apply Qle_bool_iff, H. lia.
Qed.

Lemma forallb_false_exists {A} (f : A -> bool) (l : list A) :
  forallb f l = false <-> exists x, In x l /\ f x = false.
Proof.
  induction l as [|a l IH]; simpl.
  - split; [discriminate | intros [x [[] _]]].
  - rewrite andb_false_iff, IH. split.
    + intros [H|[x [Hin Hx]]]; [exists a | exists x]; auto.
    + intros [x [[->|Hin] Hx]]; [left | right; exists x]; auto.
Qed.

Lemma all_ascending_false ks :
  all_ascending ks = false <->
  exists i, (i + 1 < length ks)%nat /\ nth (i + 1) ks 0 < nth i ks 0.
Proof.
  unfold all_ascending. rewrite forallb_false_exists.
  split; intros [i [Hi Hlt]]; exists i.
  - apply in_seq in Hi. apply Qle_bool_false in Hlt. split; [lia | trivial].
  - split; [apply in_seq; lia | now apply Qle_bool_false].
Qed.

Lemma validate_true ps ks :
  validate ps ks = true <-> (forall p, In p ps -> 0 < p) /\ ascending ks.
Proof.
  unfold validate, validate_inputs; simpl.
  destruct (any_nonpositive ps) eqn:Ep; simpl.
  - apply any_nonpositive_true in Ep. destruct Ep as [p [Hin Hp]].
    split; [discriminate | intros [H _]].
    exfalso. exact (Qlt_not_le _ _ (H p Hin) Hp).
  - pose proof (proj1 (any_nonpositive_false ps) Ep) as Hpos.
    destruct (1 <? length ks)%nat eqn:El; simpl.
    + destruct (all_ascending ks) eqn:Ea; simpl.
      * apply all_ascending_true in Ea. tauto.
      * split; [discriminate | intros [_ H]].
        apply all_ascending_true in H. congruence.
    + apply Nat.ltb_ge in El. split; [intros _ | trivial].
      split; [trivial | intros i Hi; lia].
Qed.

(** C3: [validate_inputs] answers [false] when some premium is [<= 0];
    answers [false] when there are at least two strikes and some adjacent
    pair is out of order; answers [true] in every other case; and leaves
    the two lists it was given as they were. *)
Theorem validate_inputs_verdict (e : env) :
  ((exists p, In p (premiums e) /\ p <= 0) ->
   fst (validate_inputs e) = false)
  /\ ((1 < length (strikes e))%nat ->
      (exists i, (i + 1 < length (strikes e))%nat
                 /\ nth (i + 1) (strikes e) 0 < nth i (strikes e) 0) ->
      fst (validate_inputs e) = false)
  /\ (~ (exists p, In p (premiums e) /\ p <= 0) ->
      ~ ((1 < length (strikes e))%nat
         /\ exists i, (i + 1 < length (strikes e))%nat
                      /\ nth (i + 1) (strikes e) 0 < nth i (strikes e) 0) ->
      fst (validate_inputs e) = true)
  /\ premiums (snd (validate_inputs e)) = premiums e
  /\ strikes (snd (validate_inputs e)) = strikes e.
Proof.
  unfold validate_inputs.
  destruct (any_nonpositive (premiums e)) eqn:Ep; simpl.
  - apply any_nonpositive_true in Ep. intuition.
  - rewrite <- not_true_iff_false, any_nonpositive_true in Ep.
    destruct (1 <? length (strikes e))%nat eqn:El; simpl.
    + apply Nat.ltb_lt in El.
      destruct (all_ascending (strikes e)) eqn:Ea; simpl.
      * rewrite <- not_false_iff_true, all_ascending_false in Ea. intuition.
      * apply all_ascending_false in Ea. intuition.
    + apply Nat.ltb_ge in El. repeat split; trivial; intros; try lia.
      contradiction.
Qed.

(** A premium of zero is refused whatever the strikes; [100, 90, 120] is
    refused and [90, 100, 110, 120] accepted; the lists are untouched. *)
Lemma validate_inputs_verdict_witness :
  fst (validate_inputs (mk_env [0; 2] [90; 100] [])) = false
  /\ fst (validate_inputs (mk_env [5; 2] [100; 90; 120] [])) = false
  /\ fst (validate_inputs (mk_env [5; 2; 5; 2] [90; 100; 110; 120] [])) = true
  /\ strikes (snd (validate_inputs (mk_env [5; 2] [100; 90; 120] [])))
     = [100; 90; 120].
Proof.
  destruct (validate_inputs_verdict (mk_env [0; 2] [90; 100] []))
    as [Hpremium _].
  destruct (validate_inputs_verdict (mk_env [5; 2] [100; 90; 120] []))
    as [_ [Hstrikes [_ [_ Hsame]]]].
  destruct (validate_inputs_verdict
              (mk_env [5; 2; 5; 2] [90; 100; 110; 120] []))
    as [_ [_ [Hgood _]]].
  split; [|split; [|split]].
  - apply Hpremium. exists 0. split; [now left | apply Qle_refl].
  - apply Hstrikes.
    + simpl. lia.
    + exists 0%nat. split; [simpl; lia | reflexivity].
  - apply Hgood.
    + intros [p [Hin Hp]]. simpl in Hin.
      destruct Hin as [<-|[<-|[<-|[<-|[]]]]]; unfold Qle in Hp; simpl in Hp; lia.
    + intros [_ [i [Hi Hlt]]]. simpl in Hi.
      destruct i as [|[|[|i]]]; unfold Qlt in Hlt; simpl in Hlt; lia.
  - exact Hsame.
Defined.

(** ** Payoff engine: the stated guarantees *)

(** C2: with the strikes ordered
    [buyPutStrike <= sellPutStrike <= sellCallStrike <= buyCallStrike] and a
    positive lot size, every point of the Iron Condor payoff vector is at
    most [(sellPutPremium - buyPutPremium + sellCallPremium - buyCallPremium)
    * lotSize], and every point whose spot price lies strictly between
    [sellPutStrike] and [sellCallStrike] has exactly that value. *)
Theorem iron_condor_flat_top spots Kbp Pbp Ksp Psp Ksc Psc Kbc Pbc lot :
  Kbp <= Ksp -> Ksp <= Ksc -> Ksc <= Kbc -> (0 < lot)%Z ->
  Forall2 (fun S v =>
             v <= (Psp - Pbp + Psc - Pbc) * inject_Z lot
             /\ (Ksp < S -> S < Ksc ->
                 v == (Psp - Pbp + Psc - Pbc) * inject_Z lot))
          spots
          (calculate_iron_condor_payoff
             spots Kbp Pbp Ksp Psp Ksc Psc Kbc Pbc lot).
Proof.
  intros Hput Hmid Hcall Hlot.
  rewrite iron_condor_as_map. apply Forall2_map_pointwise.
  intros S _. split.
  - apply iron_condor_point_le_top; trivial. lia.
  - intros Hlo Hhi. now apply iron_condor_point_on_top.
Qed.

(** The condor of the specification's scenario (strikes 90, 100, 110, 120;
    premiums 2, 5, 5, 2) on a five-point grid. *)
Lemma iron_condor_flat_top_witness :
  Forall2 (fun S v =>
             v <= (5 - 2 + 5 - 2) * inject_Z 1
             /\ (100 < S -> S < 110 -> v == (5 - 2 + 5 - 2) * inject_Z 1))
          [85; 95; 105; 115; 125]
          (calculate_iron_condor_payoff
             [85; 95; 105; 115; 125] 90 2 100 5 110 5 120 2 1).
Proof.
  apply (iron_condor_flat_top [85; 95; 105; 115; 125] 90 2 100 5 110 5 120 2 1);
    [lra | lra | lra | lia].
Defined.

(** C5: for a Bull Call Spread parameter set (one the validator accepts as
    the caller submits it, with a positive lot size) whose net debit
    [buyCallPremium - sellCallPremium] is positive, every point of the
    payoff vector lies between [-netDebit * lotSize] and
    [(sellCallStrike - buyCallStrike - netDebit) * lotSize]. *)
Theorem bull_call_payoff_bounds spots K1 P1 K2 P2 lot :
  validate [P1; P2] [K1; K2] = true -> (0 < lot)%Z -> 0 < P1 - P2 ->
  Forall (fun v =>
            - (P1 - P2) * inject_Z lot <= v
            /\ v <= (K2 - K1 - (P1 - P2)) * inject_Z lot)
         (calculate_bull_call_spread_payoff spots K1 P1 K2 P2 lot).
Proof.
  intros Hvalid Hlot _.
  apply validate_true in Hvalid. destruct Hvalid as [_ Hasc].
  assert (HK : K1 <= K2) by (apply (Hasc 0%nat); simpl; lia).
  rewrite bull_call_as_map. apply Forall_map, Forall_forall.
  intros S _. apply bull_call_point_bounds; trivial. lia.
Qed.

(** The spread of the specification's scenario (strikes 100 and 110,
    premiums 5 and 2): between -3 and 7. *)
Lemma bull_call_payoff_bounds_witness :
  Forall (fun v =>
            - (5 - 2) * inject_Z 1 <= v
            /\ v <= (110 - 100 - (5 - 2)) * inject_Z 1)
         (calculate_bull_call_spread_payoff [0; 100; 103; 110; 5000] 100 5 110 2 1).
Proof.
  apply (bull_call_payoff_bounds [0; 100; 103; 110; 5000] 100 5 110 2 1);
    [reflexivity | lia | lra].
Defined.

(** The order of the two strikes, which the validator enforces, is what the
    upper bound rests on: with the strikes of the scenario exchanged the
    payoff at spot 0 is -3, above the bound of -13. *)
Remark bull_call_upper_bound_needs_ordered_strikes :
  calculate_bull_call_spread_payoff [0] 110 5 100 2 1 = [-3 * inject_Z 1]
  /\ ~ -3 * inject_Z 1 <= (100 - 110 - (5 - 2)) * inject_Z 1.
Proof.
  split; [reflexivity|]. intros H. vm_compute in H. now apply H.
Qed.

(** C9: with a positive integer lot size [k], each engine returns [k] times
    the vector it returns with lot size 1. *)
Theorem payoff_linear_in_lot_size
    spots Kbp Pbp Ksp Psp Ksc Psc Kbc Pbc (k : positive) :
  Np.eq (calculate_bull_call_spread_payoff spots Kbc Pbc Ksc Psc (Z.pos k))
        (map (Qmult (inject_Z (Z.pos k)))
             (calculate_bull_call_spread_payoff spots Kbc Pbc Ksc Psc 1))
  /\ Np.eq (calculate_iron_condor_payoff
              spots Kbp Pbp Ksp Psp Ksc Psc Kbc Pbc (Z.pos k))
           (map (Qmult (inject_Z (Z.pos k)))
                (calculate_iron_condor_payoff
                   spots Kbp Pbp Ksp Psp Ksc Psc Kbc Pbc 1)).
Proof.
  rewrite !bull_call_as_map, !iron_condor_as_map, !map_map.
  split; apply Forall2_maps; intros S;
    unfold bull_call_point, iron_condor_point; ring.
Qed.

(** ** Rounding *)

Lemma rint_error (x : Q) : Qabs (inject_Z (rint x) - x) <= 1 # 2.
Proof.
  pose proof (Qfloor_le x) as Hlo.
  pose proof (Qlt_floor x) as Hhi.
  rewrite inject_Z_plus in Hhi. change (inject_Z 1) with 1 in Hhi.
  apply Qabs_Qle_condition. unfold rint.
  destruct (Qcompare_spec (x - inject_Z (Qfloor x)) (1 # 2)) as [E|E|E].
  - destruct (Z.even (Qfloor x));
      rewrite ?inject_Z_plus; change (inject_Z 1) with 1; split; lra.
  - split; lra.
  - rewrite inject_Z_plus. change (inject_Z 1) with 1. split; lra.
Qed.

Lemma round2_error (x : Q) : Qabs (round2 x - x) <= 1 # 200.
Proof.
  pose proof (rint_error (x * 100)) as H.
  apply Qabs_Qle_condition in H. apply Qabs_Qle_condition.
  unfold round2. set (r := inject_Z (rint (x * 100))) in *.
  assert (E : r / 100 == r * (1 # 100)) by reflexivity.
  rewrite E. split; lra.
Qed.

(** ** Indexing, division and the loop combinator *)

Lemma getitem_nth (a : Np.ndarray) (i : nat) :
  (i < length a)%nat -> getitem a i = Ok (nth i a 0).
Proof.
  intros H. unfold getitem.
  now rewrite (nth_error_nth' a 0 H).
Qed.

Lemma getitem_cases (a : Np.ndarray) (i : nat) :
  (exists x, getitem a i = Ok x) \/ getitem a i = Raise IndexError.
Proof.
  unfold getitem. destruct (nth_error a i); eauto.
Qed.

Lemma getitem_ok (a : Np.ndarray) i x :
  getitem a i = Ok x -> (i < length a)%nat /\ x = nth i a 0.
Proof.
  unfold getitem. destruct (nth_error a i) as [y|] eqn:E; [|discriminate].
  intros [= <-]. split.
  - apply nth_error_Some. congruence.
  - symmetry. now apply nth_error_nth.
Qed.

Lemma Forall_nth_Q (P : Q -> Prop) (a : Np.ndarray) i :
  Forall P a -> (i < length a)%nat -> P (nth i a 0).
Proof.
  intros H Hi. rewrite Forall_forall in H. now apply H, nth_In.
Qed.

Lemma straddles_b_true p0 p1 : straddles_b p0 p1 = true <-> straddles p0 p1.
Proof.
  unfold straddles_b, straddles.
  now rewrite orb_true_iff, !andb_true_iff, !Qle_bool_iff.
Qed.

Lemma divide_ok (x y : Q) : ~ y == 0 -> divide x y = Ok (x / y).
Proof.
  intros H. unfold divide.
  destruct (Qeq_bool y 0) eqn:E; [|reflexivity].
  now apply Qeq_bool_iff in E.
Qed.

Lemma Qabs_nonzero (x : Q) : ~ x == 0 -> ~ Qabs x == 0.
Proof.
  intros H E. apply H.
  pose proof (Qle_Qabs x). pose proof (Qle_Qabs (- x)) as H'.
  rewrite Qabs_opp in H'. lra.
Qed.

Lemma steep_nonzero (tol d : Q) : 0 <= tol -> tol < Qabs d -> ~ d == 0.
Proof.
  intros Htol Hd E. rewrite E in Hd. change (Qabs 0) with 0 in Hd. lra.
Qed.

Lemma for_each_app body l1 l2 acc :
  for_each body (l1 ++ l2) acc
  = acc' <- for_each body l1 acc ;; for_each body l2 acc'.
Proof.
  revert acc. induction l1 as [|i l1 IH]; intros acc; simpl; [reflexivity|].
  destruct (body acc i); simpl; auto.
Qed.

Lemma for_each_idle body l acc :
  (forall i, In i l -> body acc i = Ok acc) -> for_each body l acc = Ok acc.
Proof.
  induction l as [|i l IH]; intros H; simpl; [reflexivity|].
  rewrite H by now left. simpl. apply IH. intros j Hj. apply H. now right.
Qed.

Lemma for_each_never (e : exn) body l acc :
  (forall acc' i, In i l -> body acc' i <> Raise e) ->
  for_each body l acc <> Raise e.
Proof.
  revert acc. induction l as [|i l IH]; intros acc H; simpl; [discriminate|].
  destruct (body acc i) as [acc'|e'] eqn:E; simpl.
  - apply IH. intros a j Hj. apply H. now right.
  - rewrite <- E. apply H. now left.
Qed.

Lemma list_set_incl l b : In b (list_set l) -> In b l.
Proof.
  induction l as [|x l IH]; simpl; [trivial|].
  intros [->|H]; [now left|].
  apply filter_In in H. right. apply IH, H.
Qed.

(** ** The loop of the breakeven finder *)

Section Segments.

Variables (payoff spot_prices : Np.ndarray) (tolerance : Q).

(** The loop only visits segments whose two ends are inside [payoff]. *)
Lemma segment_in_range i :
  In i (seq 0 (length payoff - 1)) -> (i + 1 < length payoff)%nat.
Proof.
  intros H. apply in_seq in H. lia.
Qed.

Lemma sign_change_in_range i :
  (i + 1 < length payoff)%nat ->
  sign_change payoff i
  = Ok (straddles_b (nth i payoff 0) (nth (i + 1) payoff 0)).
Proof.
  intros H. unfold sign_change, or_else, and_then, le0, ge0, straddles_b.
  rewrite !getitem_nth by lia. cbn [bind].
  destruct (Qle_bool (nth i payoff 0) 0), (Qle_bool 0 (nth (i + 1) payoff 0)),
    (Qle_bool 0 (nth i payoff 0)); reflexivity.
Qed.

Lemma slope_exceeds_in_range i :
  (i + 1 < length payoff)%nat ->
  slope_exceeds payoff tolerance i
  = Ok (Qlt_bool tolerance (Qabs (nth (i + 1) payoff 0 - nth i payoff 0))).
Proof.
  intros H. unfold slope_exceeds. now rewrite !getitem_nth by lia.
Qed.

Lemma records_true i :
  records payoff tolerance i = true <->
  straddles (nth i payoff 0) (nth (i + 1) payoff 0)
  /\ tolerance < Qabs (nth (i + 1) payoff 0 - nth i payoff 0).
Proof.
  unfold records. now rewrite andb_true_iff, straddles_b_true, Qlt_bool_iff.
Qed.

Lemma records_false i :
  records payoff tolerance i = false <->
  (straddles (nth i payoff 0) (nth (i + 1) payoff 0) ->
   Qabs (nth (i + 1) payoff 0 - nth i payoff 0) <= tolerance).
Proof.
  unfold records.
  rewrite andb_false_iff, Qlt_bool_false, <- straddles_b_true.
  destruct (straddles_b _ _); intuition congruence.
Qed.

Lemma interpolate_in_range i :
  (i + 1 < length payoff)%nat -> (i + 1 < length spot_prices)%nat ->
  ~ nth (i + 1) payoff 0 - nth i payoff 0 == 0 ->
  interpolate payoff spot_prices i = Ok (chord_root payoff spot_prices i).
Proof.
  intros Hp Hs Hd. unfold interpolate, chord_root.
  rewrite !getitem_nth by lia. cbn [bind].
  now rewrite divide_ok by now apply Qabs_nonzero.
Qed.

Lemma interpolate_ok i b :
  interpolate payoff spot_prices i = Ok b ->
  (i + 1 < length spot_prices)%nat /\ b = chord_root payoff spot_prices i.
Proof.
  unfold interpolate, chord_root.
  destruct (getitem payoff i) as [p0|] eqn:E0; cbn [bind]; [|discriminate].
  destruct (getitem payoff (i + 1)) as [p1|] eqn:E1; cbn [bind];
    [|discriminate].
  unfold divide. destruct (Qeq_bool _ _); cbn [bind]; [discriminate|].
  destruct (getitem spot_prices i) as [s0|] eqn:E2; cbn [bind];
    [|discriminate].
  destruct (getitem spot_prices (i + 1)) as [s1|] eqn:E3; cbn [bind];
    [|discriminate].
  apply getitem_ok in E0, E1, E2, E3.
  destruct E0 as [_ ->], E1 as [_ ->], E2 as [_ ->], E3 as [H3 ->].
  intros [= <-]. now split.
Qed.

Lemma interpolate_never_divides_by_zero i :
  (i + 1 < length payoff)%nat ->
  ~ nth (i + 1) payoff 0 - nth i payoff 0 == 0 ->
  interpolate payoff spot_prices i <> Raise DivideByZero.
Proof.
  intros Hp Hd. unfold interpolate.
  rewrite !getitem_nth by lia. cbn [bind].
  rewrite divide_ok by now apply Qabs_nonzero. cbn [bind].
  destruct (getitem_cases spot_prices i) as [[s0 ->]| ->]; cbn [bind];
    [|discriminate].
  destruct (getitem_cases spot_prices (i + 1)) as [[s1 ->]| ->]; cbn [bind];
    discriminate.
Qed.

(** One iteration, once its two payoffs are known to exist. *)
Lemma breakeven_step_in_range acc i :
  (i + 1 < length payoff)%nat ->
  breakeven_step payoff spot_prices tolerance acc i
  = if records payoff tolerance i
    then breakeven_price <- interpolate payoff spot_prices i ;;
         Ok (acc ++ [round2 breakeven_price])%list
    else Ok acc.
Proof.
  intros H. unfold breakeven_step, records.
  rewrite sign_change_in_range, slope_exceeds_in_range by trivial.
  cbn [bind].
  destruct (straddles_b _ _); cbn [andb]; [|reflexivity].
  destruct (Qlt_bool _ _); reflexivity.
Qed.

Lemma breakeven_step_skips acc i :
  (i + 1 < length payoff)%nat -> records payoff tolerance i = false ->
  breakeven_step payoff spot_prices tolerance acc i = Ok acc.
Proof.
  intros Hi E. now rewrite breakeven_step_in_range, E.
Qed.

Lemma breakeven_step_never_divides_by_zero acc i :
  0 <= tolerance -> (i + 1 < length payoff)%nat ->
  breakeven_step payoff spot_prices tolerance acc i <> Raise DivideByZero.
Proof.
  intros Htol Hi. rewrite breakeven_step_in_range by trivial.
  destruct (records payoff tolerance i) eqn:E; [|discriminate].
  apply records_true in E. destruct E as [_ Hsteep].
  pose proof (interpolate_never_divides_by_zero i Hi
                (steep_nonzero _ _ Htol Hsteep)) as H.
  destruct (interpolate payoff spot_prices i) as [b|e]; cbn [bind];
    [discriminate | congruence].
Qed.

Lemma find_breakeven_points_never_divides_by_zero :
  0 <= tolerance ->
  find_breakeven_points payoff spot_prices tolerance <> Raise DivideByZero.
Proof.
  intros Htol. unfold find_breakeven_points.
  pose proof (for_each_never DivideByZero
                (breakeven_step payoff spot_prices tolerance)
                (seq 0 (length payoff - 1)) []) as H.
  destruct (for_each _ _ _) as [bps|e]; cbn [bind]; [discriminate|].
  intros E. apply H; [|congruence].
  intros acc i Hi.
  apply breakeven_step_never_divides_by_zero; trivial.
  now apply segment_in_range.
Qed.

Lemma nothing_recorded :
  (forall i, (i + 1 < length payoff)%nat ->
             records payoff tolerance i = false) ->
  find_breakeven_points payoff spot_prices tolerance = Ok [].
Proof.
  intros H. unfold find_breakeven_points.
  rewrite for_each_idle; [reflexivity|].
  intros i Hi. apply segment_in_range in Hi.
  apply breakeven_step_skips; auto.
Qed.

(** Whatever the loop adds to the list is the rounded chord root of a
    segment that passes both tests. *)
Lemma for_each_elements l :
  (forall i, In i l -> (i + 1 < length payoff)%nat) ->
  forall acc r,
    for_each (breakeven_step payoff spot_prices tolerance) l acc = Ok r ->
    forall b, In b r ->
      In b acc
      \/ exists i, In i l /\ records payoff tolerance i = true
                   /\ b = round2 (chord_root payoff spot_prices i).
Proof.
  induction l as [|i l IH]; intros Hl acc r; simpl.
  - intros [= <-] b Hb. now left.
  - rewrite breakeven_step_in_range by (apply Hl; now left).
    assert (Hl' : forall j, In j l -> (j + 1 < length payoff)%nat)
      by (intros j Hj; apply Hl; now right).
    destruct (records payoff tolerance i) eqn:Erec.
    + destruct (interpolate payoff spot_prices i) as [p|] eqn:Eint;
        cbn [bind]; [|discriminate].
      intros Hr b Hb.
      destruct (IH Hl' _ _ Hr b Hb) as [Hin|[j [Hj [Hrec Hbj]]]].
      * apply in_app_or in Hin. destruct Hin as [Hin|[<-|[]]]; [now left|].
        right. exists i. apply interpolate_ok in Eint.
        destruct Eint as [_ ->]. auto.
      * right. exists j. auto.
    + cbn [bind]. intros Hr b Hb.
      destruct (IH Hl' _ _ Hr b Hb) as [Hin|[j [Hj [Hrec Hbj]]]];
        [now left|].
      right. exists j. auto.
Qed.

End Segments.

(** ** Breakeven finder: the stated guarantees *)

(** A payoff vector of one weak sign has a sign change exactly at the
    segments with an end equal to zero. *)
Lemma straddles_same_sign p0 p1 :
  (0 <= p0 /\ 0 <= p1) \/ (p0 <= 0 /\ p1 <= 0) ->
  straddles p0 p1 -> p0 == 0 \/ p1 == 0.
Proof.
  unfold straddles. intros [[H0 H1]|[H0 H1]] [[A B]|[A B]];
    (left; lra) || (right; lra).
Qed.

(** C4, as amended: a payoff vector that is entirely non-negative, or
    entirely non-positive, and in which no segment with an end equal to
    zero has its two ends more than the tolerance apart, yields the empty
    set under the default tolerance, whatever grid it is paired with. *)
Theorem one_signed_payoff_has_no_breakeven payoff spots :
  Forall (fun v => 0 <= v) payoff \/ Forall (fun v => v <= 0) payoff ->
  (forall i, (i + 1 < length payoff)%nat ->
             nth i payoff 0 == 0 \/ nth (i + 1) payoff 0 == 0 ->
             Qabs (nth (i + 1) payoff 0 - nth i payoff 0)
             <= default_tolerance) ->
  find_breakeven_points payoff spots default_tolerance = Ok [].
Proof.
  intros Hsign Hflat. apply nothing_recorded.
  intros i Hi. apply records_false. intros Hstr.
  apply Hflat; trivial.
  apply straddles_same_sign; trivial.
  destruct Hsign as [H|H]; [left|right];
    split; apply (Forall_nth_Q _ _ _ H); lia.
Qed.

(** A non-negative vector that lies flat at zero and then leaves it by half
    a cent, less than the tolerance: nothing is reported. *)
Lemma one_signed_payoff_has_no_breakeven_witness :
  find_breakeven_points [0; 0; 1 # 200; 3] [95; 100; 105; 110]
                        default_tolerance = Ok [].
Proof.
  apply (one_signed_payoff_has_no_breakeven
           [0; 0; 1 # 200; 3] [95; 100; 105; 110]).
  - left. repeat constructor; unfold Qle; simpl; lia.
  - intros i Hi [H|H]; simpl in Hi;
      destruct i as [|[|[|i]]]; simpl in H; try discriminate H;
      try (unfold Qle; simpl; lia); lia.
Defined.

(** C4, as stated, fails: a payoff of 0 at the first grid point and 5 at
    the second is entirely non-negative, and the first grid point is
    reported as a breakeven. *)
Lemma nonnegative_payoff_with_breakeven :
  ~ (forall payoff spots,
        Forall (fun v => 0 <= v) payoff \/ Forall (fun v => v <= 0) payoff ->
        length payoff = length spots ->
        find_breakeven_points payoff spots default_tolerance = Ok []).
Proof.
  intros H. specialize (H [0; 5] [0; 1]).
  assert (E : find_breakeven_points [0; 5] [0; 1] default_tolerance
              = Ok [round2 0]) by reflexivity.
  rewrite E in H. discriminate H.
  - left. repeat constructor; unfold Qle; simpl; lia.
  - reflexivity.
Qed.

(** In particular a payoff vector that is positive throughout, or negative
    throughout, has no breakeven, under any tolerance. *)
Corollary strictly_signed_payoff_has_no_breakeven payoff spots tol :
  Forall (fun v => 0 < v) payoff \/ Forall (fun v => v < 0) payoff ->
  find_breakeven_points payoff spots tol = Ok [].
Proof.
  intros Hsign. apply nothing_recorded.
  intros i Hi. apply records_false. intros Hstr. exfalso.
  unfold straddles in Hstr.
  destruct Hsign as [H|H];
    pose proof (Forall_nth_Q _ _ i H ltac:(lia));
    pose proof (Forall_nth_Q _ _ (i + 1)%nat H Hi);
    cbv beta in *; lra.
Qed.

(** C6: under the default tolerance 0.01 no run of
    [find_breakeven_points] divides by zero; a segment on which a sign
    change is detected while its two payoffs are at most the tolerance
    apart leaves the list of breakevens as it was; and every value returned
    stems from a segment with a sign change whose two payoffs are more than
    the tolerance apart. *)
Theorem tolerance_guards_the_division payoff spots :
  find_breakeven_points payoff spots default_tolerance <> Raise DivideByZero
  /\ (forall acc i,
         (i + 1 < length payoff)%nat ->
         sign_change payoff i = Ok true ->
         Qabs (nth (i + 1) payoff 0 - nth i payoff 0) <= default_tolerance ->
         breakeven_step payoff spots default_tolerance acc i = Ok acc)
  /\ (forall bs b,
         find_breakeven_points payoff spots default_tolerance = Ok bs ->
         In b bs ->
         exists i, (i + 1 < length payoff)%nat
                   /\ sign_change payoff i = Ok true
                   /\ default_tolerance
                      < Qabs (nth (i + 1) payoff 0 - nth i payoff 0)
                   /\ b = round2 (chord_root payoff spots i)).
Proof.
  split; [|split].
  - apply find_breakeven_points_never_divides_by_zero.
    unfold default_tolerance. lra.
  - intros acc i Hi _ Hflat.
    apply breakeven_step_skips; trivial.
    apply records_false. now intros _.
  - intros bs b. unfold find_breakeven_points.
    destruct (for_each _ _ _) as [r|] eqn:E; cbn [bind]; [|discriminate].
    intros [= <-] Hb. apply list_set_incl in Hb.
    destruct (for_each_elements payoff spots default_tolerance _
                (segment_in_range payoff) _ _ E b Hb)
      as [[]|[i [Hi [Hrec Hbi]]]].
    apply segment_in_range in Hi. apply records_true in Hrec.
    destruct Hrec as [Hstr Hsteep].
    exists i. rewrite sign_change_in_range by trivial.
    repeat split; trivial.
    f_equal. now apply straddles_b_true.
Qed.

(** A segment from -0.005 to 0.005 straddles zero with a slope of exactly
    the tolerance: the step records nothing. *)
Lemma tolerance_guards_the_division_witness :
  breakeven_step [-(1 # 200); 1 # 200] [100; 105] default_tolerance [] 0
  = Ok [].
Proof.
  apply (tolerance_guards_the_division [-(1 # 200); 1 # 200] [100; 105]).
  - simpl. lia.
  - reflexivity.
  - unfold Qle. simpl. lia.
Defined.

(** ** Summary reducer *)

Lemma Qmax_either x y : Qmax x y = x \/ Qmax x y = y.
Proof.
  unfold Qmax, GenericMinMax.gmax. destruct (x ?= y); auto.
Qed.

Lemma Qmin_either x y : Qmin x y = x \/ Qmin x y = y.
Proof.
  unfold Qmin, GenericMinMax.gmin. destruct (x ?= y); auto.
Qed.

Lemma fold_left_Qmax l x :
  In (fold_left Qmax l x) (x :: l)
  /\ forall v, In v (x :: l) -> v <= fold_left Qmax l x.
Proof.
  revert x. induction l as [|y l IH]; intros x; simpl.
  - split; [now left | intros v [<-|[]]; apply Qle_refl].
  - destruct (IH (Qmax x y)) as [Hin Hub]. split.
    + destruct Hin as [E|Hin]; [|now right; right].
      rewrite <- E. destruct (Qmax_either x y) as [-> | ->]; auto.
    + intros v [<-|[<-|Hv]].
      * apply Qle_trans with (Qmax x y); [apply Q.le_max_l|].
        apply Hub. now left.
      * apply Qle_trans with (Qmax x y); [apply Q.le_max_r|].
        apply Hub. now left.
      * apply Hub. now right.
Qed.

Lemma fold_left_Qmin l x :
  In (fold_left Qmin l x) (x :: l)
  /\ forall v, In v (x :: l) -> fold_left Qmin l x <= v.
Proof.
  revert x. induction l as [|y l IH]; intros x; simpl.
  - split; [now left | intros v [<-|[]]; apply Qle_refl].
  - destruct (IH (Qmin x y)) as [Hin Hlb]. split.
    + destruct Hin as [E|Hin]; [|now right; right].
      rewrite <- E. destruct (Qmin_either x y) as [-> | ->]; auto.
    + intros v [<-|[<-|Hv]].
      * apply Qle_trans with (Qmin x y); [|apply Q.le_min_l].
        apply Hlb. now left.
      * apply Qle_trans with (Qmin x y); [|apply Q.le_min_r].
        apply Hlb. now left.
      * apply Hlb. now right.
Qed.

(** C8: on a non-empty payoff vector [display_summary] does not fail; its
    maximum profit is an element of the vector that no element exceeds, and
    its maximum loss an element of the vector that exceeds no element. *)
Theorem summary_of_nonempty_payoff payoff breakeven_points :
  payoff <> [] ->
  exists s,
    display_summary payoff breakeven_points = Ok s
    /\ In (max_profit s) payoff
    /\ (forall v, In v payoff -> v <= max_profit s)
    /\ In (max_loss s) payoff
    /\ (forall v, In v payoff -> max_loss s <= v)
    /\ breakevens s = breakeven_points.
Proof.
  intros Hne. destruct payoff as [|x l]; [contradiction|].
  unfold display_summary, np_max, np_min. cbn [bind].
  eexists. split; [reflexivity|]. cbn [max_profit max_loss breakevens].
  destruct (fold_left_Qmax l x) as [Hin Hub].
  destruct (fold_left_Qmin l x) as [Hin' Hlb].
  auto 6.
Qed.

(** The payoff [-3; 0; 2; 7; 7] of the scenario's spread: best 7, worst -3. *)
Lemma summary_of_nonempty_payoff_witness :
  exists s,
    display_summary [-3; 0; 2; 7; 7] [103] = Ok s
    /\ In (max_profit s) [-3; 0; 2; 7; 7]
    /\ (forall v, In v [-3; 0; 2; 7; 7] -> v <= max_profit s)
    /\ In (max_loss s) [-3; 0; 2; 7; 7]
    /\ (forall v, In v [-3; 0; 2; 7; 7] -> max_loss s <= v)
    /\ breakevens s = [103].
Proof.
  apply (summary_of_nonempty_payoff [-3; 0; 2; 7; 7] [103]).
  discriminate.
Defined.

(** ** A single crossing *)

Lemma single_crossing_elsewhere payoff tol i j :
  single_crossing payoff i -> (j + 1 < length payoff)%nat -> j <> i ->
  records payoff tol j = false.
Proof.
  intros Hx Hj Hne. apply records_false. intros Hstr. exfalso.
  assert (Hcase : (j + 1 <= i)%nat \/ (i < j)%nat) by lia.
  unfold straddles in Hstr.
  destruct Hx as [[Hneg Hpos]|[Hpos Hneg]], Hcase as [Hlt|Hgt].
  - pose proof (Hneg j ltac:(lia)). pose proof (Hneg (j + 1)%nat Hlt). lra.
  - pose proof (Hpos j ltac:(lia)). pose proof (Hpos (j + 1)%nat ltac:(lia)).
    lra.
  - pose proof (Hpos j ltac:(lia)). pose proof (Hpos (j + 1)%nat Hlt). lra.
  - pose proof (Hneg j ltac:(lia)). pose proof (Hneg (j + 1)%nat ltac:(lia)).
    lra.
Qed.

Lemma single_crossing_straddles payoff i :
  single_crossing payoff i -> (i + 1 < length payoff)%nat ->
  straddles (nth i payoff 0) (nth (i + 1) payoff 0)
  /\ ~ nth (i + 1) payoff 0 - nth i payoff 0 == 0.
Proof.
  intros [[Hlo Hhi]|[Hlo Hhi]] Hi;
    pose proof (Hlo i (Nat.le_refl i));
    pose proof (Hhi (i + 1)%nat ltac:(lia));
    unfold straddles; split; lra.
Qed.

Lemma single_crossing_result payoff spots tol i :
  (i + 1 < length payoff)%nat -> (length payoff <= length spots)%nat ->
  single_crossing payoff i ->
  tol < Qabs (nth (i + 1) payoff 0 - nth i payoff 0) ->
  find_breakeven_points payoff spots tol
  = Ok [round2 (chord_root payoff spots i)].
Proof.
  intros Hi Hlen Hx Hsteep.
  destruct (single_crossing_straddles payoff i Hx Hi) as [Hstr Hd].
  unfold find_breakeven_points.
  replace (length payoff - 1)%nat
    with (i + (1 + (length payoff - 1 - (i + 1))))%nat by lia.
  rewrite !seq_app, for_each_app. cbn [seq].
  rewrite for_each_idle.
  2:{ intros j Hj. apply in_seq in Hj.
      apply breakeven_step_skips; [lia|].
      apply single_crossing_elsewhere with (i := i); trivial; lia. }
  cbn [bind app for_each]. rewrite Nat.add_0_l.
  rewrite breakeven_step_in_range by lia.
  replace (records payoff tol i) with true
    by (symmetry; apply records_true; now split).
  rewrite interpolate_in_range by (trivial; lia).
  cbn [bind app].
  rewrite for_each_idle; [reflexivity|].
  intros j Hj. apply in_seq in Hj.
  apply breakeven_step_skips; [lia|].
  apply single_crossing_elsewhere with (i := i); trivial; lia.
Qed.

(** C7, as amended: for a payoff vector that changes sign once, strictly
    between grid points [i] and [i + 1], with the two payoffs more than the
    tolerance apart, [find_breakeven_points] returns exactly one value; it
    is within 0.005 of the root of the chord, hence within the tolerance
    whenever the tolerance is at least 0.005, as the default 0.01 is. *)
Theorem single_crossing_breakeven payoff spots tol i :
  (i + 1 < length payoff)%nat -> length payoff = length spots ->
  single_crossing payoff i ->
  tol < Qabs (nth (i + 1) payoff 0 - nth i payoff 0) ->
  exists b,
    find_breakeven_points payoff spots tol = Ok [b]
    /\ Qabs (b - chord_root payoff spots i) <= 1 # 200
    /\ (1 # 200 <= tol -> Qabs (b - chord_root payoff spots i) <= tol).
Proof.
  intros Hi Hlen Hx Hsteep.
  exists (round2 (chord_root payoff spots i)).
  split; [|split].
  - apply single_crossing_result; trivial; lia.
  - apply round2_error.
  - intros Htol. eapply Qle_trans; [apply round2_error | exact Htol].
Qed.

(** The scenario's spread crosses zero between 100 and 105; from payoffs
    -3 and 2 the breakeven comes out at 103. *)
Lemma single_crossing_breakeven_witness :
  exists b,
    find_breakeven_points [-3; -3; 2; 7] [95; 100; 105; 110] default_tolerance
    = Ok [b]
    /\ Qabs (b - chord_root [-3; -3; 2; 7] [95; 100; 105; 110] 1) <= 1 # 200
    /\ (1 # 200 <= default_tolerance ->
        Qabs (b - chord_root [-3; -3; 2; 7] [95; 100; 105; 110] 1)
        <= default_tolerance).
Proof.
  apply (single_crossing_breakeven
           [-3; -3; 2; 7] [95; 100; 105; 110] default_tolerance 1).
  - simpl. lia.
  - reflexivity.
  - left. split; intros j Hj.
    + destruct j as [|[|j]]; [reflexivity | reflexivity | lia].
    + simpl in Hj. destruct j as [|[|[|[|j]]]]; try lia; reflexivity.
  - reflexivity.
Defined.

(** C7, as stated, fails for a tolerance below the rounding step: from
    payoffs -1 and 2 on the grid 0, 1 the root is 1/3, the value returned
    is 0.33, and the two are 1/300 apart, more than a tolerance of 0.001. *)
Lemma single_crossing_not_within_small_tolerance :
  ~ (forall payoff spots tol i,
        (i + 1 < length payoff)%nat -> length payoff = length spots ->
        single_crossing payoff i ->
        tol < Qabs (nth (i + 1) payoff 0 - nth i payoff 0) ->
        exists b,
          find_breakeven_points payoff spots tol = Ok [b]
          /\ Qabs (b - chord_root payoff spots i) <= tol).
Proof.
  intros H.
  destruct (H [-1; 2] [0; 1] (1 # 1000) 0%nat) as [b [E Hb]].
  - simpl. lia.
  - reflexivity.
  - left. split; intros j Hj.
    + destruct j; [reflexivity | lia].
    + simpl in Hj. destruct j as [|[|j]]; try lia. reflexivity.
  - reflexivity.
  - assert (E' : find_breakeven_points [-1; 2] [0; 1] (1 # 1000)
                 = Ok [33 # 100]) by reflexivity.
    rewrite E' in E. injection E as <-.
    vm_compute in Hb. apply Hb. reflexivity.
Qed.

(** ** Where the interpolated price lies *)

Lemma ascending_mono (a : Np.ndarray) i j :
  ascending a -> (i <= j)%nat -> (j < length a)%nat ->
  nth i a 0 <= nth j a 0.
Proof.
  intros Hasc Hij. induction Hij as [|j Hij IH]; intros Hj.
  - apply Qle_refl.
  - apply Qle_trans with (nth j a 0); [apply IH; lia|].
    replace (S j) with (j + 1)%nat by lia. apply Hasc. lia.
Qed.

Lemma straddles_abs p0 p1 :
  straddles p0 p1 -> Qabs (p1 - p0) == Qabs p0 + Qabs p1.
Proof.
  intros [[H0 H1]|[H0 H1]].
  - rewrite (Qabs_neg p0), (Qabs_pos p1), (Qabs_pos (p1 - p0)) by lra. ring.
  - rewrite (Qabs_pos p0), (Qabs_neg p1), (Qabs_neg (p1 - p0)) by lra. ring.
Qed.

Lemma ratio_in_unit_interval p0 p1 :
  straddles p0 p1 -> ~ p1 - p0 == 0 ->
  0 <= Qabs p0 / Qabs (p1 - p0) /\ Qabs p0 / Qabs (p1 - p0) <= 1.
Proof.
  intros Hstr Hd.
  pose proof (Qabs_nonneg p0) as H0.
  pose proof (Qabs_nonneg p1) as H1.
  pose proof (Qabs_nonneg (p1 - p0)) as Hd0.
  pose proof (Qabs_nonzero _ Hd) as Hd1.
  assert (Hpos : 0 < Qabs (p1 - p0)) by (apply Qle_lteq in Hd0; destruct Hd0 as [|E]; [trivial | now symmetry in E]).
  apply straddles_abs in Hstr.
  split.
  - apply Qle_shift_div_l; trivial. lra.
  - apply Qle_shift_div_r; trivial. lra.
Qed.

Lemma chord_between (s0 s1 r : Q) :
  s0 <= s1 -> 0 <= r -> r <= 1 ->
  s0 <= s0 + r * (s1 - s0) /\ s0 + r * (s1 - s0) <= s1.
Proof.
  intros Hs Hr0 Hr1.
  assert (H0 : 0 <= r * (s1 - s0)) by (apply Qmult_le_0_compat; lra).
  assert (H1 : r * (s1 - s0) <= 1 * (s1 - s0))
    by (apply Qmult_le_compat_r; lra).
  split; lra.
Qed.

(** C10: for a payoff vector and a non-decreasing grid of the same length,
    on a segment [i] where the sign-change condition holds and the two
    payoffs differ (as they do wherever the guard lets the code divide),
    the ratio is computed and lies in [[0, 1]], and the breakeven price
    before rounding is computed and lies between [spot_prices[i]] and
    [spot_prices[i+1]], and so between the first and the last grid point. *)
Theorem breakeven_within_segment payoff spots i :
  length payoff = length spots -> ascending spots ->
  sign_change payoff i = Ok true ->
  ~ nth (i + 1) payoff 0 - nth i payoff 0 == 0 ->
  exists ratio b,
    divide (Qabs (nth i payoff 0))
           (Qabs (nth (i + 1) payoff 0 - nth i payoff 0)) = Ok ratio
    /\ 0 <= ratio /\ ratio <= 1
    /\ interpolate payoff spots i = Ok b
    /\ nth i spots 0 <= b /\ b <= nth (i + 1) spots 0
    /\ nth 0 spots 0 <= b /\ b <= nth (length spots - 1) spots 0.
Proof.
  intros Hlen Hasc Hsign Hd.
  assert (Hi : (i + 1 < length payoff)%nat).
  { destruct (Nat.lt_ge_cases (i + 1) (length payoff)) as [H|H]; trivial.
    exfalso. revert Hsign.
    unfold sign_change, or_else, and_then, le0, ge0.
    assert (E : getitem payoff (i + 1) = Raise IndexError)
      by (unfold getitem; now rewrite (proj2 (nth_error_None _ _) H)).
    rewrite E.
    destruct (getitem_cases payoff i) as [[x ->]| ->]; cbn [bind];
      [|discriminate].
    destruct (Qle_bool x 0), (Qle_bool 0 x); cbn [bind]; discriminate. }
  rewrite sign_change_in_range in Hsign by trivial.
  injection Hsign as Hstr. apply straddles_b_true in Hstr.
  destruct (ratio_in_unit_interval _ _ Hstr Hd) as [Hr0 Hr1].
  assert (Hs : nth i spots 0 <= nth (i + 1) spots 0)
    by (apply Hasc; lia).
  destruct (chord_between _ _ _ Hs Hr0 Hr1) as [Hb0 Hb1].
  exists (Qabs (nth i payoff 0)
          / Qabs (nth (i + 1) payoff 0 - nth i payoff 0)).
  exists (chord_root payoff spots i).
  split; [apply divide_ok; now apply Qabs_nonzero|].
  split; [exact Hr0|]. split; [exact Hr1|].
  split; [apply interpolate_in_range; trivial; lia|].
  unfold chord_root.
  split; [exact Hb0|]. split; [exact Hb1|]. split.
  - eapply Qle_trans; [|exact Hb0]. apply ascending_mono; trivial; lia.
  - eapply Qle_trans; [exact Hb1|]. apply ascending_mono; trivial; lia.
Qed.

(** The crossing of the scenario's spread between the grid points 100 and
    105: ratio 3/5, price 103 before rounding. *)
Lemma breakeven_within_segment_witness :
  exists ratio b,
    divide (Qabs (nth 1 [-3; -3; 2; 7] 0))
           (Qabs (nth (1 + 1) [-3; -3; 2; 7] 0 - nth 1 [-3; -3; 2; 7] 0))
    = Ok ratio
    /\ 0 <= ratio /\ ratio <= 1
    /\ interpolate [-3; -3; 2; 7] [95; 100; 105; 110] 1 = Ok b
    /\ nth 1 [95; 100; 105; 110] 0 <= b
    /\ b <= nth (1 + 1) [95; 100; 105; 110] 0
    /\ nth 0 [95; 100; 105; 110] 0 <= b
    /\ b <= nth (length [95; 100; 105; 110] - 1) [95; 100; 105; 110] 0.
Proof.
  apply (breakeven_within_segment [-3; -3; 2; 7] [95; 100; 105; 110] 1).
  - reflexivity.
  - intros j Hj. simpl in Hj.
    destruct j as [|[|[|j]]]; try lia; unfold Qle; simpl; lia.
  - reflexivity.
  - discriminate.
Defined.

(** * Further properties of the code *)

(** ** Shape and profile of the two payoffs *)

Lemma inject_Z_pos (k : Z) : (0 < k)%Z -> 0 < inject_Z k.
Proof.
  intros H. change 0 with (inject_Z 0). now rewrite <- Zlt_Qlt.
Qed.

Lemma nth_map_Q (f : Q -> Q) (l : Np.ndarray) i :
  (i < length l)%nat -> nth i (map f l) 0 = f (nth i l 0).
Proof.
  intros H. rewrite (nth_indep _ 0 (f 0)) by (rewrite length_map; lia).
  apply map_nth.
Qed.

Lemma ascending_map (f : Q -> Q) (l : Np.ndarray) :
  (forall x y, x <= y -> f x <= f y) -> ascending l -> ascending (map f l).
Proof.
  intros Hf Hl i Hi. rewrite length_map in Hi.
  rewrite !nth_map_Q by lia. apply Hf, Hl, Hi.
Qed.

(** X1: each engine returns one payoff per spot price. *)
Theorem payoff_length spots Kbp Pbp Ksp Psp Ksc Psc Kbc Pbc lot :
  length (calculate_bull_call_spread_payoff spots Kbc Pbc Ksc Psc lot)
  = length spots
  /\ length (calculate_iron_condor_payoff
               spots Kbp Pbp Ksp Psp Ksc Psc Kbc Pbc lot)
     = length spots.
Proof.
  rewrite bull_call_as_map, iron_condor_as_map, !length_map. now split.
Qed.

Lemma bull_call_point_regions K1 P1 K2 P2 lot S :
  K1 <= K2 ->
  (S <= K1 -> bull_call_point K1 P1 K2 P2 lot S
              == - (P1 - P2) * inject_Z lot)
  /\ (K1 <= S -> S <= K2 ->
      bull_call_point K1 P1 K2 P2 lot S
      == (S - K1 - (P1 - P2)) * inject_Z lot)
  /\ (K2 <= S -> bull_call_point K1 P1 K2 P2 lot S
                 == (K2 - K1 - (P1 - P2)) * inject_Z lot).
Proof.
  intros HK. unfold bull_call_point.
  repeat split; intros; apply Qmult_comp; try reflexivity;
    split_max; lra.
Qed.

(** X2: with [buy_call_strike <= sell_call_strike] the Bull Call Spread
    payoff has three pieces: the constant [-netDebit * lot] up to the buy
    strike, [(S - buyStrike - netDebit) * lot] between the strikes, and
    the constant [(sellStrike - buyStrike - netDebit) * lot] from the sell
    strike on. *)
Theorem bull_call_payoff_pieces spots K1 P1 K2 P2 lot :
  K1 <= K2 ->
  Forall2 (fun S v =>
             (S <= K1 -> v == - (P1 - P2) * inject_Z lot)
             /\ (K1 <= S -> S <= K2 ->
                 v == (S - K1 - (P1 - P2)) * inject_Z lot)
             /\ (K2 <= S -> v == (K2 - K1 - (P1 - P2)) * inject_Z lot))
          spots
          (calculate_bull_call_spread_payoff spots K1 P1 K2 P2 lot).
Proof.
  intros HK. rewrite bull_call_as_map. apply Forall2_map_pointwise.
  intros S _. now apply bull_call_point_regions.
Qed.

Lemma bull_call_payoff_pieces_witness :
  Forall2 (fun S v =>
             (S <= 100 -> v == - (5 - 2) * inject_Z 2)
             /\ (100 <= S -> S <= 110 ->
                 v == (S - 100 - (5 - 2)) * inject_Z 2)
             /\ (110 <= S -> v == (110 - 100 - (5 - 2)) * inject_Z 2))
          [90; 104; 120]
          (calculate_bull_call_spread_payoff [90; 104; 120] 100 5 110 2 2).
Proof.
  apply (bull_call_payoff_pieces [90; 104; 120] 100 5 110 2 2). lra.
Defined.

Lemma bull_call_point_monotone K1 P1 K2 P2 lot S S' :
  K1 <= K2 -> (0 <= lot)%Z -> S <= S' ->
  bull_call_point K1 P1 K2 P2 lot S <= bull_call_point K1 P1 K2 P2 lot S'.
Proof.
  intros HK Hlot HS. apply inject_Z_nonneg in Hlot.
  unfold bull_call_point.
  apply Qmult_le_compat_r; trivial. split_max; lra.
Qed.

(** X3: with [buy_call_strike <= sell_call_strike] and a non-negative lot
    size, the Bull Call Spread payoff over a non-decreasing grid is
    non-decreasing. *)
Theorem bull_call_payoff_ascending spots K1 P1 K2 P2 lot :
  K1 <= K2 -> (0 <= lot)%Z -> ascending spots ->
  ascending (calculate_bull_call_spread_payoff spots K1 P1 K2 P2 lot).
Proof.
  intros HK Hlot Hasc. rewrite bull_call_as_map.
  apply ascending_map; trivial.
  intros x y Hxy. now apply bull_call_point_monotone.
Qed.

Lemma ascending_4 (a b c d : Q) :
  a <= b -> b <= c -> c <= d -> ascending [a; b; c; d].
Proof.
  intros H1 H2 H3 i Hi. simpl in Hi.
  destruct i as [|[|[|i]]]; simpl; trivial; lia.
Qed.

Lemma bull_call_payoff_ascending_witness :
  ascending (calculate_bull_call_spread_payoff [90; 104; 108; 120] 100 5 110 2 2).
Proof.
  apply (bull_call_payoff_ascending [90; 104; 108; 120] 100 5 110 2 2);
    [lra | lia | apply ascending_4; lra].
Defined.

Lemma Qmult_neg_pos (x z : Q) : x < 0 -> 0 < z -> x * z < 0.
Proof.
  intros Hx Hz. pose proof (Qmult_lt_compat_r x 0 z Hz Hx) as H.
  now rewrite Qmult_0_l in H.
Qed.

(** X4: for a spread with ordered strikes, a positive lot size and a net
    debit strictly between 0 and the distance of the strikes, the payoff
    is negative below [buyStrike + netDebit], zero there and positive
    above: that price is the one breakeven of the strategy. *)
Theorem bull_call_payoff_sign spots K1 P1 K2 P2 lot :
  (0 < lot)%Z -> 0 < P1 - P2 -> P1 - P2 < K2 - K1 ->
  Forall2 (fun S v =>
             (S < K1 + (P1 - P2) -> v < 0)
             /\ (S == K1 + (P1 - P2) -> v == 0)
             /\ (K1 + (P1 - P2) < S -> 0 < v))
          spots
          (calculate_bull_call_spread_payoff spots K1 P1 K2 P2 lot).
Proof.
  intros Hlot Hd0 Hd1. apply inject_Z_pos in Hlot.
  rewrite bull_call_as_map. apply Forall2_map_pointwise.
  intros S _. unfold bull_call_point. repeat split; intros HS.
  - apply Qmult_neg_pos; trivial. split_max; lra.
  - assert (E : Qmax (S - K1) 0 - P1 + (P2 - Qmax (S - K2) 0) == 0)
      by (split_max; lra).
    rewrite E. ring.
  - apply Qmult_lt_0_compat; trivial. split_max; lra.
Qed.

Lemma bull_call_payoff_sign_witness :
  Forall2 (fun S v =>
             (S < 100 + (5 - 2) -> v < 0)
             /\ (S == 100 + (5 - 2) -> v == 0)
             /\ (100 + (5 - 2) < S -> 0 < v))
          [90; 103; 120]
          (calculate_bull_call_spread_payoff [90; 103; 120] 100 5 110 2 2).
Proof.
  apply (bull_call_payoff_sign [90; 103; 120] 100 5 110 2 2); [lia | lra | lra].
Defined.

(** X5: with the four strikes in order and a non-negative lot size, the
    Iron Condor payoff is the constant
    [(netCredit - (sellPutStrike - buyPutStrike)) * lot] up to the bought
    put, the constant [(netCredit - (buyCallStrike - sellCallStrike)) * lot]
    from the bought call on, and nowhere below the smaller of the two. *)
Theorem iron_condor_wings spots Kbp Pbp Ksp Psp Ksc Psc Kbc Pbc lot :
  Kbp <= Ksp -> Ksp <= Ksc -> Ksc <= Kbc -> (0 <= lot)%Z ->
  Forall2 (fun S v =>
             (S <= Kbp ->
              v == (Psp - Pbp + Psc - Pbc - (Ksp - Kbp)) * inject_Z lot)
             /\ (Kbc <= S ->
                 v == (Psp - Pbp + Psc - Pbc - (Kbc - Ksc)) * inject_Z lot)
             /\ (Psp - Pbp + Psc - Pbc - Qmax (Ksp - Kbp) (Kbc - Ksc))
                * inject_Z lot <= v)
          spots
          (calculate_iron_condor_payoff
             spots Kbp Pbp Ksp Psp Ksc Psc Kbc Pbc lot).
Proof.
  intros Hput Hmid Hcall Hlot. apply inject_Z_nonneg in Hlot.
  rewrite iron_condor_as_map. apply Forall2_map_pointwise.
  intros S _. unfold iron_condor_point. repeat split; intros.
  - apply Qmult_comp; [|reflexivity]. split_max; lra.
  - apply Qmult_comp; [|reflexivity]. split_max; lra.
  - apply Qmult_le_compat_r; trivial. split_max; lra.
Qed.

Lemma iron_condor_wings_witness :
  Forall2 (fun S v =>
             (S <= 90 -> v == (5 - 2 + 5 - 2 - (100 - 90)) * inject_Z 1)
             /\ (120 <= S ->
                 v == (5 - 2 + 5 - 2 - (120 - 110)) * inject_Z 1)
             /\ (5 - 2 + 5 - 2 - Qmax (100 - 90) (120 - 110))
                * inject_Z 1 <= v)
          [85; 105; 125]
          (calculate_iron_condor_payoff [85; 105; 125] 90 2 100 5 110 5 120 2 1).
Proof.
  apply (iron_condor_wings [85; 105; 125] 90 2 100 5 110 5 120 2 1);
    [lra | lra | lra | lia].
Defined.

(** ** What the validator reports *)

(** X6: [validate_inputs] leaves the page alone when it accepts, and adds
    exactly one message when it refuses: the one about premiums whenever a
    premium is [<= 0], whatever the strikes, and the one about strikes only
    when all premiums are positive. *)
Theorem validate_inputs_reports (e : env) :
  (fst (validate_inputs e) = true -> snd (validate_inputs e) = e)
  /\ ((exists p, In p (premiums e) /\ p <= 0) ->
      page (snd (validate_inputs e))
      = (page e ++ ["All premiums must be positive values."%string])%list)
  /\ ((forall p, In p (premiums e) -> 0 < p) ->
      fst (validate_inputs e) = false ->
      page (snd (validate_inputs e))
      = (page e ++ ["Strike prices must be in ascending order."%string])%list).
Proof.
  unfold validate_inputs.
  destruct (any_nonpositive (premiums e)) eqn:Ep; cbn [fst snd page].
  - apply any_nonpositive_true in Ep. destruct Ep as [p [Hin Hp]].
    split; [discriminate|]. split; [reflexivity|].
    intros Hpos. exfalso. exact (Qlt_not_le _ _ (Hpos p Hin) Hp).
  - rewrite <- not_true_iff_false, any_nonpositive_true in Ep.
    destruct ((1 <? length (strikes e))%nat && negb (all_ascending (strikes e)));
      cbn [fst snd page].
    + split; [discriminate|]. split; [contradiction | reflexivity].
    + split; [reflexivity|]. split; [contradiction | discriminate].
Qed.

(** A zero premium together with strikes out of order: only the premiums
    are reported. *)
Lemma validate_inputs_reports_witness :
  page (snd (validate_inputs (mk_env [0; 2] [110; 100] [])))
  = ([] ++ ["All premiums must be positive values."%string])%list.
Proof.
  destruct (validate_inputs_reports (mk_env [0; 2] [110; 100] []))
    as [_ [Hpremium _]].
  apply Hpremium. exists 0. split; [now left | apply Qle_refl].
Defined.

(** ** Outcomes of the breakeven finder *)

Lemma for_each_raises (e : exn) body l :
  (forall acc i, In i l ->
                 body acc i = Raise e \/ exists acc', body acc i = Ok acc') ->
  (exists i, In i l /\ forall acc, body acc i = Raise e) ->
  forall acc, for_each body l acc = Raise e.
Proof.
  induction l as [|i l IH]; intros Hall [j [Hj Hraise]] acc.
  - destruct Hj.
  - simpl. destruct (Hall acc i (or_introl eq_refl)) as [E|[acc' E]];
      rewrite E; cbn [bind]; [reflexivity|].
    destruct Hj as [<-|Hj]; [rewrite Hraise in E; discriminate|].
    apply IH.
    + intros a k Hk. apply Hall. now right.
    + exists j. auto.
Qed.

Section Outcomes.

Variables (payoff spot_prices : Np.ndarray) (tolerance : Q).

(** The three outcomes of one iteration under a non-negative tolerance. *)
Lemma breakeven_step_cases acc i :
  0 <= tolerance -> (i + 1 < length payoff)%nat ->
  (records payoff tolerance i = false
   /\ breakeven_step payoff spot_prices tolerance acc i = Ok acc)
  \/ (records payoff tolerance i = true
      /\ (i + 1 < length spot_prices)%nat
      /\ breakeven_step payoff spot_prices tolerance acc i
         = Ok (acc ++ [round2 (chord_root payoff spot_prices i)])%list)
  \/ (records payoff tolerance i = true
      /\ (length spot_prices <= i + 1)%nat
      /\ breakeven_step payoff spot_prices tolerance acc i
         = Raise IndexError).
Proof.
  intros Htol Hi. rewrite breakeven_step_in_range by trivial.
  destruct (records payoff tolerance i) eqn:Erec; [|now left].
  right. apply records_true in Erec. destruct Erec as [_ Hsteep].
  pose proof (steep_nonzero _ _ Htol Hsteep) as Hd.
  destruct (Nat.lt_ge_cases (i + 1) (length spot_prices)) as [Hs|Hs].
  - left. rewrite interpolate_in_range by trivial. now cbn [bind].
  - right. repeat split; trivial.
    unfold interpolate. rewrite !getitem_nth by lia. cbn [bind].
    rewrite divide_ok by now apply Qabs_nonzero. cbn [bind].
    assert (E : getitem spot_prices (i + 1) = Raise IndexError)
      by (unfold getitem; now rewrite (proj2 (nth_error_None _ _) Hs)).
    rewrite E.
    destruct (getitem_cases spot_prices i) as [[s0 ->]| ->]; reflexivity.
Qed.

Lemma for_each_outcome l :
  0 <= tolerance ->
  (forall i, In i l -> (i + 1 < length payoff)%nat) ->
  forall acc,
    (exists r, for_each (breakeven_step payoff spot_prices tolerance) l acc
               = Ok r
               /\ (length r <= length acc + length l)%nat
               /\ (forall b, In b acc -> In b r)
               /\ (forall i, In i l -> records payoff tolerance i = true ->
                             (i + 1 < length spot_prices)%nat
                             /\ In (round2 (chord_root payoff spot_prices i))
                                   r))
    \/ (for_each (breakeven_step payoff spot_prices tolerance) l acc
        = Raise IndexError
        /\ exists i, In i l /\ records payoff tolerance i = true
                     /\ (length spot_prices <= i + 1)%nat).
Proof.
  intros Htol. induction l as [|i l IH]; intros Hl acc.
  - left. exists acc. simpl.
    split; [reflexivity|]. split; [lia|]. split; [auto|]. intros i [].
  - assert (Hl' : forall j, In j l -> (j + 1 < length payoff)%nat)
      by (intros j Hj; apply Hl; now right).
    simpl.
    destruct (breakeven_step_cases acc i Htol (Hl i (or_introl eq_refl)))
      as [[Erec E]|[[Erec [Hs E]]|[Erec [Hs E]]]]; rewrite E; cbn [bind].
    + destruct (IH Hl' acc) as [[r [Er [Hlen [Hacc Hrec]]]]|[Er [j Hj]]].
      * left. exists r.
        split; [exact Er|]. split; [lia|]. split; [exact Hacc|].
        intros j [<-|Hj] Hj'; [congruence | now apply Hrec].
      * right. split; trivial. exists j. intuition.
    + destruct (IH Hl' (acc ++ [round2 (chord_root payoff spot_prices i)])%list)
        as [[r [Er [Hlen [Hacc Hrec]]]]|[Er [j Hj]]].
      * left. exists r. rewrite length_app in Hlen. simpl in Hlen.
        split; [exact Er|]. split; [lia|]. split.
        -- intros b Hb. apply Hacc, in_or_app. now left.
        -- intros j [<-|Hj] Hj'; [|now apply Hrec].
           split; [exact Hs|]. apply Hacc, in_or_app. right. now left.
      * right. split; trivial. exists j. intuition.
    + right. split; trivial. exists i. auto.
Qed.

End Outcomes.

Lemma list_set_length l : (length (list_set l) <= length l)%nat.
Proof.
  induction l as [|x l IH]; simpl; [lia|].
  pose proof (filter_length_le (fun y => negb (Qeq_bool y x)) (list_set l)).
  lia.
Qed.

Lemma InA_filter_Q (f : Q -> bool) x l :
  InA Qeq x (filter f l) -> InA Qeq x l.
Proof.
  induction l as [|y l IH]; simpl; [trivial|].
  destruct (f y); intros H.
  - inversion H; subst; [now left | right; auto].
  - right. auto.
Qed.

Lemma NoDupA_filter_Q (f : Q -> bool) l :
  NoDupA Qeq l -> NoDupA Qeq (filter f l).
Proof.
  induction 1 as [|y l Hy Hl IH]; simpl; [constructor|].
  destruct (f y); trivial.
  constructor; trivial. intros H. apply Hy. now apply InA_filter_Q in H.
Qed.

Lemma list_set_NoDupA l : NoDupA Qeq (list_set l).
Proof.
  induction l as [|x l IH]; simpl; constructor.
  - intros H. apply InA_alt in H. destruct H as [y [Exy Hy]].
    apply filter_In in Hy. destruct Hy as [_ Hy].
    apply negb_true_iff, Qeq_bool_neq in Hy. apply Hy. now symmetry.
  - now apply NoDupA_filter_Q.
Qed.

Lemma list_set_InA l x : In x l -> InA Qeq x (list_set l).
Proof.
  induction l as [|y l IH]; simpl; intros H; [destruct H|].
  destruct H as [->|H]; [now left|].
  destruct (Qeq_bool x y) eqn:E.
  - left. now apply Qeq_bool_eq.
  - right. specialize (IH H). apply InA_alt in IH.
    destruct IH as [z [Exz Hz]]. apply InA_alt. exists z. split; trivial.
    apply filter_In. split; trivial.
    apply negb_true_iff. destruct (Qeq_bool z y) eqn:E'; trivial.
    apply Qeq_bool_eq in E'. apply Qeq_bool_neq in E.
    exfalso. apply E. now rewrite Exz.
Qed.

Lemma for_each_length payoff spots tol l :
  (forall i, In i l -> (i + 1 < length payoff)%nat) ->
  forall acc r,
    for_each (breakeven_step payoff spots tol) l acc = Ok r ->
    (length r <= length acc + length l)%nat.
Proof.
  induction l as [|i l IH]; intros Hl acc r; simpl.
  - intros [= <-]. lia.
  - rewrite breakeven_step_in_range by (apply Hl; now left).
    assert (Hl' : forall j, In j l -> (j + 1 < length payoff)%nat)
      by (intros j Hj; apply Hl; now right).
    destruct (records payoff tol i).
    + destruct (interpolate payoff spots i) as [p|]; cbn [bind];
        [|discriminate].
      intros Hr. apply (IH Hl') in Hr.
      rewrite length_app in Hr. simpl in Hr. lia.
    + cbn [bind]. intros Hr. apply (IH Hl') in Hr. lia.
Qed.

(** X7: a payoff vector with fewer than two points has no segment; the
    finder returns the empty list whatever the grid and the tolerance,
    without looking at either. *)
Theorem find_breakeven_points_short payoff spots tol :
  (length payoff <= 1)%nat -> find_breakeven_points payoff spots tol = Ok [].
Proof.
  intros H. unfold find_breakeven_points.
  replace (length payoff - 1)%nat with 0%nat by lia. reflexivity.
Qed.

Lemma find_breakeven_points_short_witness :
  find_breakeven_points [7] [] (-1) = Ok [].
Proof.
  apply (find_breakeven_points_short [7] [] (-1)). simpl. lia.
Defined.

(** X8: with a grid at least as long as the payoff vector and a
    non-negative tolerance the finder returns a list; it does not fail. *)
Theorem find_breakeven_points_total payoff spots tol :
  (length payoff <= length spots)%nat -> 0 <= tol ->
  exists bs, find_breakeven_points payoff spots tol = Ok bs.
Proof.
  intros Hlen Htol. unfold find_breakeven_points.
  destruct (for_each_outcome payoff spots tol _ Htol
              (segment_in_range payoff) [])
    as [[r [Er _]]|[_ [i [Hi [_ Hs]]]]].
  - rewrite Er. cbn [bind]. eauto.
  - apply segment_in_range in Hi. lia.
Qed.

Lemma find_breakeven_points_total_witness :
  exists bs,
    find_breakeven_points [-3; 2; 0; -1] [100; 105; 110; 115; 120]
                          default_tolerance = Ok bs.
Proof.
  apply (find_breakeven_points_total
           [-3; 2; 0; -1] [100; 105; 110; 115; 120] default_tolerance).
  - simpl. lia.
  - unfold default_tolerance. lra.
Defined.

(** X9: under a non-negative tolerance the finder fails with an index
    error exactly when some segment with a sign change and payoffs more
    than the tolerance apart has its right end beyond the grid; a grid
    that is too short goes unnoticed otherwise. *)
Theorem find_breakeven_points_index_error payoff spots tol :
  0 <= tol ->
  (find_breakeven_points payoff spots tol = Raise IndexError <->
   exists i, (i + 1 < length payoff)%nat
             /\ straddles (nth i payoff 0) (nth (i + 1) payoff 0)
             /\ tol < Qabs (nth (i + 1) payoff 0 - nth i payoff 0)
             /\ (length spots <= i + 1)%nat).
Proof.
  intros Htol. unfold find_breakeven_points.
  destruct (for_each_outcome payoff spots tol _ Htol
              (segment_in_range payoff) [])
    as [[r [Er [_ [_ Hrec]]]]|[Er [i [Hi [Erec Hs]]]]];
    rewrite Er; cbn [bind]; split.
  - discriminate.
  - intros [i [Hi [Hstr [Hsteep Hs]]]]. exfalso.
    destruct (Hrec i) as [Hs' _]; [apply in_seq; lia | | lia].
    apply records_true. now split.
  - intros _. exists i. apply segment_in_range in Hi.
    apply records_true in Erec. tauto.
  - reflexivity.
Qed.

(** A crossing in the second segment, a grid of two points. *)
Lemma find_breakeven_points_index_error_witness :
  find_breakeven_points [-3; -1; 2] [100; 105] default_tolerance
  = Raise IndexError.
Proof.
  apply (find_breakeven_points_index_error
           [-3; -1; 2] [100; 105] default_tolerance).
  - unfold default_tolerance. lra.
  - exists 1%nat. split; [simpl; lia|]. split; [|split].
    + left. simpl. lra.
    + reflexivity.
    + simpl. lia.
Defined.

(** X10: the list returned holds no value twice and at most one value per
    segment. *)
Theorem find_breakeven_points_distinct payoff spots tol bs :
  find_breakeven_points payoff spots tol = Ok bs ->
  NoDupA Qeq bs /\ (length bs <= length payoff - 1)%nat.
Proof.
  unfold find_breakeven_points.
  destruct (for_each _ _ _) as [r|] eqn:E; cbn [bind]; [|discriminate].
  intros [= <-]. split; [apply list_set_NoDupA|].
  apply for_each_length in E; [|apply segment_in_range].
  rewrite length_seq in E. simpl in E.
  pose proof (list_set_length r). lia.
Qed.

(** A payoff that touches zero at a grid point: both neighbouring segments
    find the same price, which is returned once. *)
Lemma find_breakeven_points_distinct_witness :
  NoDupA Qeq [10500 # 100]
  /\ (length [10500 # 100]%Q <= length [5; 0; 5]%Q - 1)%nat.
Proof.
  apply (find_breakeven_points_distinct
           [5; 0; 5] [100; 105; 110] default_tolerance [10500 # 100]).
  reflexivity.
Defined.

(** X11: under a non-negative tolerance, every segment with a sign change
    and payoffs more than the tolerance apart is represented in the list
    returned by the rounded root of its chord. *)
Theorem find_breakeven_points_complete payoff spots tol bs i :
  0 <= tol ->
  find_breakeven_points payoff spots tol = Ok bs ->
  (i + 1 < length payoff)%nat ->
  straddles (nth i payoff 0) (nth (i + 1) payoff 0) ->
  tol < Qabs (nth (i + 1) payoff 0 - nth i payoff 0) ->
  InA Qeq (round2 (chord_root payoff spots i)) bs.
Proof.
  intros Htol. unfold find_breakeven_points.
  destruct (for_each_outcome payoff spots tol _ Htol
              (segment_in_range payoff) [])
    as [[r [Er [_ [_ Hrec]]]]|[Er _]];
    rewrite Er; cbn [bind]; [|discriminate].
  intros [= <-] Hi Hstr Hsteep.
  apply list_set_InA, Hrec; [apply in_seq; lia|].
  apply records_true. now split.
Qed.

Lemma find_breakeven_points_complete_witness :
  InA Qeq (round2 (chord_root [-3; 2; 7; -3] [100; 105; 110; 115] 2))
      [10300 # 100; 11350 # 100].
Proof.
  apply (find_breakeven_points_complete
           [-3; 2; 7; -3] [100; 105; 110; 115] default_tolerance
           [10300 # 100; 11350 # 100] 2).
  - unfold default_tolerance. lra.
  - reflexivity.
  - simpl. lia.
  - right. simpl. lra.
  - reflexivity.
Defined.

(** X12: the guard protects the division only for a non-negative
    tolerance.  With a negative tolerance and a grid as long as the payoff
    vector, a segment whose two payoffs are both zero passes the guard and
    the finder divides by zero. *)
Theorem negative_tolerance_divides_by_zero payoff spots tol i :
  tol < 0 -> (length payoff <= length spots)%nat ->
  (i + 1 < length payoff)%nat ->
  nth i payoff 0 == 0 -> nth (i + 1) payoff 0 == 0 ->
  find_breakeven_points payoff spots tol = Raise DivideByZero.
Proof.
  intros Htol Hlen Hi H0 H1. unfold find_breakeven_points.
  rewrite (for_each_raises DivideByZero); [reflexivity | |].
  - intros acc j Hj. apply segment_in_range in Hj.
    rewrite breakeven_step_in_range by trivial.
    destruct (records payoff tol j); [|right; eauto].
    unfold interpolate. rewrite !getitem_nth by lia. cbn [bind].
    unfold divide. destruct (Qeq_bool _ _); cbn [bind]; [now left|].
    right. eauto.
  - exists i. split; [apply in_seq; lia|]. intros acc.
    assert (Ed : Qabs (nth (i + 1) payoff 0 - nth i payoff 0) == 0)
      by (rewrite H0, H1; reflexivity).
    rewrite breakeven_step_in_range by trivial.
    replace (records payoff tol i) with true.
    + unfold interpolate. rewrite !getitem_nth by lia. cbn [bind].
      unfold divide. now rewrite (Qeq_eq_bool _ _ Ed).
    + symmetry. apply records_true. split.
      * left. split; lra.
      * now rewrite Ed.
Qed.

Lemma negative_tolerance_divides_by_zero_witness :
  find_breakeven_points [3; 0; 0; 3] [100; 105; 110; 115] (- (1 # 100))
  = Raise DivideByZero.
Proof.
  apply (negative_tolerance_divides_by_zero
           [3; 0; 0; 3] [100; 105; 110; 115] (- (1 # 100)) 1).
  - lra.
  - simpl. lia.
  - simpl. lia.
  - reflexivity.
  - reflexivity.
Defined.

Lemma chord_root_in_segment payoff spots i :
  straddles (nth i payoff 0) (nth (i + 1) payoff 0) ->
  ~ nth (i + 1) payoff 0 - nth i payoff 0 == 0 ->
  nth i spots 0 <= nth (i + 1) spots 0 ->
  nth i spots 0 <= chord_root payoff spots i
  /\ chord_root payoff spots i <= nth (i + 1) spots 0.
Proof.
  intros Hstr Hd Hs.
  destruct (ratio_in_unit_interval _ _ Hstr Hd) as [Hr0 Hr1].
  exact (chord_between _ _ _ Hs Hr0 Hr1).
Qed.

(** X13: over a non-decreasing grid at least as long as the payoff vector
    and under a non-negative tolerance, every value returned lies within
    0.005 of the segment it was found in, and so within 0.005 of the range
    of the grid. *)
Theorem find_breakeven_points_range payoff spots tol bs b :
  ascending spots -> (length payoff <= length spots)%nat -> 0 <= tol ->
  find_breakeven_points payoff spots tol = Ok bs -> In b bs ->
  exists i, (i + 1 < length payoff)%nat
            /\ nth i spots 0 - (1 # 200) <= b
            /\ b <= nth (i + 1) spots 0 + (1 # 200)
            /\ nth 0 spots 0 - (1 # 200) <= b
            /\ b <= nth (length spots - 1) spots 0 + (1 # 200).
Proof.
  intros Hasc Hlen Htol. unfold find_breakeven_points.
  destruct (for_each _ _ _) as [r|] eqn:E; cbn [bind]; [|discriminate].
  intros [= <-] Hb. apply list_set_incl in Hb.
  destruct (for_each_elements payoff spots tol _
              (segment_in_range payoff) _ _ E b Hb)
    as [[]|[i [Hi [Hrec ->]]]].
  apply segment_in_range in Hi. apply records_true in Hrec.
  destruct Hrec as [Hstr Hsteep].
  destruct (chord_root_in_segment payoff spots i Hstr
              (steep_nonzero _ _ Htol Hsteep) (Hasc i ltac:(lia)))
    as [Hlo Hhi].
  pose proof (round2_error (chord_root payoff spots i)) as Hr.
  apply Qabs_Qle_condition in Hr. destruct Hr as [Hr0 Hr1].
  pose proof (ascending_mono spots 0 i Hasc ltac:(lia) ltac:(lia)) as H0.
  pose proof (ascending_mono spots (i + 1) (length spots - 1) Hasc
                ltac:(lia) ltac:(lia)) as H1.
  exists i. repeat split; trivial; lra.
Qed.

Lemma find_breakeven_points_range_witness :
  exists i, (i + 1 < length [-3; -1; 2]%Q)%nat
            /\ nth i [100; 105; 110] 0 - (1 # 200) <= 10667 # 100
            /\ 10667 # 100 <= nth (i + 1) [100; 105; 110] 0 + (1 # 200)
            /\ nth 0 [100; 105; 110] 0 - (1 # 200) <= 10667 # 100
            /\ 10667 # 100
               <= nth (length [100; 105; 110]%Q - 1) [100; 105; 110] 0
                  + (1 # 200).
Proof.
  apply (find_breakeven_points_range
           [-3; -1; 2] [100; 105; 110] default_tolerance [10667 # 100]).
  - intros i Hi. simpl in Hi.
    destruct i as [|[|i]]; try lia; unfold Qle; simpl; lia.
  - simpl. lia.
  - unfold default_tolerance. lra.
  - reflexivity.
  - now left.
Defined.

(** ** Long and short side of a position *)

Lemma round2_comp (x y : Q) : x == y -> round2 x = round2 y.
Proof.
  intros H.
  assert (Ef : Qfloor (x * 100) = Qfloor (y * 100)) by now rewrite H.
  assert (Ec : Qcompare (x * 100 - inject_Z (Qfloor (x * 100))) (1 # 2)
               = Qcompare (y * 100 - inject_Z (Qfloor (y * 100))) (1 # 2))
    by (rewrite Ef; now rewrite H).
  unfold round2, rint. cbv zeta. now rewrite Ec, Ef.
Qed.

Lemma for_each_ext body body' l acc :
  (forall a i, In i l -> body a i = body' a i) ->
  for_each body l acc = for_each body' l acc.
Proof.
  revert acc. induction l as [|i l IH]; intros acc H; simpl; [reflexivity|].
  rewrite <- H by now left.
  destruct (body acc i) as [acc'|]; cbn [bind]; [|reflexivity].
  apply IH. intros a j Hj. apply H. now right.
Qed.

Lemma nth_opp (a : Np.ndarray) i :
  (i < length a)%nat -> nth i (map Qopp a) 0 = - nth i a 0.
Proof.
  apply nth_map_Q.
Qed.

Lemma records_opp payoff tol i :
  (i + 1 < length payoff)%nat ->
  records (map Qopp payoff) tol i = records payoff tol i.
Proof.
  intros Hi. apply eq_iff_eq_true.
  rewrite !records_true, !nth_opp by lia.
  set (p0 := nth i payoff 0). set (p1 := nth (i + 1) payoff 0).
  assert (E : - p1 - - p0 == - (p1 - p0)) by ring.
  rewrite E, Qabs_opp. unfold straddles.
  split; intros [[[A B]|[A B]] H]; split; trivial;
    (left; split; lra) || (right; split; lra).
Qed.

Lemma breakeven_step_opp payoff spots tol acc i :
  (i + 1 < length payoff)%nat ->
  breakeven_step (map Qopp payoff) spots tol acc i
  = breakeven_step payoff spots tol acc i.
Proof.
  intros Hi.
  rewrite !breakeven_step_in_range by (rewrite ?length_map; trivial).
  rewrite records_opp by trivial.
  destruct (records payoff tol i); [|reflexivity].
  unfold interpolate.
  rewrite !(getitem_nth (map Qopp payoff)) by (rewrite length_map; lia).
  rewrite !(getitem_nth payoff) by lia.
  rewrite !nth_opp by lia. cbn [bind].
  set (p0 := nth i payoff 0). set (p1 := nth (i + 1) payoff 0).
  assert (Ed : Qabs (- p1 - - p0) == Qabs (p1 - p0)).
  { assert (E : - p1 - - p0 == - (p1 - p0)) by ring.
    now rewrite E, Qabs_opp. }
  unfold divide.
  assert (Eb : Qeq_bool (Qabs (- p1 - - p0)) 0 = Qeq_bool (Qabs (p1 - p0)) 0)
    by now rewrite Ed.
  rewrite Eb. destruct (Qeq_bool (Qabs (p1 - p0)) 0); cbn [bind];
    [reflexivity|].
  destruct (getitem spots i) as [s0|]; cbn [bind]; [|reflexivity].
  destruct (getitem spots (i + 1)) as [s1|]; cbn [bind]; [|reflexivity].
  do 3 f_equal. apply round2_comp. now rewrite Ed, Qabs_opp.
Qed.

(** X14: the finder returns the same list for a payoff vector and for its
    negation: the seller of a position has the breakevens of its buyer. *)
Theorem find_breakeven_points_opp payoff spots tol :
  find_breakeven_points (map Qopp payoff) spots tol
  = find_breakeven_points payoff spots tol.
Proof.
  unfold find_breakeven_points. rewrite length_map.
  rewrite (for_each_ext (breakeven_step (map Qopp payoff) spots tol)
             (breakeven_step payoff spots tol)); [reflexivity|].
  intros a i Hi. apply breakeven_step_opp. now apply segment_in_range.
Qed.

(** ** Summary and chart *)

Lemma display_summary_ok payoff bps s :
  display_summary payoff bps = Ok s ->
  In (max_profit s) payoff
  /\ (forall v, In v payoff -> v <= max_profit s)
  /\ In (max_loss s) payoff
  /\ (forall v, In v payoff -> max_loss s <= v)
  /\ breakevens s = bps.
Proof.
  destruct payoff as [|x l]; [discriminate|].
  unfold display_summary, np_max, np_min. cbn [bind].
  intros [= <-]. cbn [max_profit max_loss breakevens].
  destruct (fold_left_Qmax l x) as [Hin Hub].
  destruct (fold_left_Qmin l x) as [Hin' Hlb].
  auto 6.
Qed.

(** [display_summary] fails exactly on the empty payoff vector, where
    [np.max] has nothing to reduce. *)
Remark display_summary_fails_on_empty payoff bps :
  (payoff = [] <-> display_summary payoff bps = Raise ValueError)
  /\ (forall e, display_summary payoff bps = Raise e -> payoff = []).
Proof.
  destruct payoff as [|x l]; split; try split;
    try reflexivity; try discriminate.
Qed.

(** X15: the maximum loss shown never exceeds the maximum profit shown. *)
Theorem max_loss_le_max_profit payoff bps s :
  display_summary payoff bps = Ok s -> max_loss s <= max_profit s.
Proof.
  intros H. apply display_summary_ok in H.
  destruct H as [_ [Hub [Hin _]]]. exact (Hub _ Hin).
Qed.

Lemma max_loss_le_max_profit_witness :
  max_loss (mk_summary 7 (-3) []) <= max_profit (mk_summary 7 (-3) []).
Proof.
  apply (max_loss_le_max_profit [-3; 2; 7] [] (mk_summary 7 (-3) [])).
  reflexivity.
Defined.

Lemma any_positive_true (a : Np.ndarray) :
  Np.any_positive a = true <-> exists v, In v a /\ 0 < v.
Proof.
  unfold Np.any_positive. rewrite existsb_exists.
  split; intros [v [Hin Hv]]; exists v; split; trivial.
  - now apply negb_true_iff, Qle_bool_false in Hv.
  - now apply negb_true_iff, Qle_bool_false.
Qed.

(** X16: the chart and the summary agree on the same payoff vector: the
    area under the trace is filled exactly when the maximum profit is shown
    in the normal colour, which is exactly when some payoff is positive;
    and the maximum loss is shown in the inverse colour exactly when some
    payoff is negative. *)
Theorem chart_and_summary_agree spots payoff bps s :
  display_summary payoff bps = Ok s ->
  (trace_fill (create_payoff_chart spots payoff) = Some "tonexty"%string
   <-> max_profit_delta_color s = "normal"%string)
  /\ (max_profit_delta_color s = "normal"%string
      <-> exists v, In v payoff /\ 0 < v)
  /\ (max_loss_delta_color s = "inverse"%string
      <-> exists v, In v payoff /\ v < 0).
Proof.
  intros H. apply display_summary_ok in H.
  destruct H as [Hmax [Hub [Hmin [Hlb _]]]].
  assert (Hprofit : max_profit_delta_color s = "normal"%string
                    <-> exists v, In v payoff /\ 0 < v).
  { unfold max_profit_delta_color.
    destruct (Qle_bool (max_profit s) 0) eqn:E; cbn [negb].
    - apply Qle_bool_iff in E. split; [discriminate|].
      intros [v [Hin Hv]]. specialize (Hub v Hin). lra.
    - apply Qle_bool_false in E. split; [|reflexivity].
      intros _. now exists (max_profit s). }
  split; [|split; [exact Hprofit|]].
  - rewrite Hprofit, <- any_positive_true.
    unfold create_payoff_chart. cbn [trace_fill].
    destruct (Np.any_positive payoff); split; congruence.
  - unfold max_loss_delta_color.
    destruct (Qle_bool 0 (max_loss s)) eqn:E; cbn [negb].
    + apply Qle_bool_iff in E. split; [discriminate|].
      intros [v [Hin Hv]]. specialize (Hlb v Hin). lra.
    + apply Qle_bool_false in E. split; [|reflexivity].
      intros _. now exists (max_loss s).
Qed.

Lemma chart_and_summary_agree_witness :
  (trace_fill (create_payoff_chart [100; 105; 110] [-3; 2; 7])
   = Some "tonexty"%string
   <-> max_profit_delta_color (mk_summary 7 (-3) []) = "normal"%string)
  /\ (max_profit_delta_color (mk_summary 7 (-3) []) = "normal"%string
      <-> exists v, In v [-3; 2; 7] /\ 0 < v)
  /\ (max_loss_delta_color (mk_summary 7 (-3) []) = "inverse"%string
      <-> exists v, In v [-3; 2; 7] /\ v < 0).
Proof.
  apply (chart_and_summary_agree [100; 105; 110] [-3; 2; 7] []
           (mk_summary 7 (-3) [])).
  reflexivity.
Defined.

(** ** The grid *)

Lemma linspace_unfold start stop n :
  Np.linspace start stop (S (S n))
  = (map (fun i => inject_Z (Z.of_nat i)
                   * ((stop - start) / inject_Z (Z.of_nat (S n))) + start)
         (seq 0 (S n)) ++ [stop])%list.
Proof.
  reflexivity.
Qed.

Lemma nth_map_seq (f : nat -> Q) m i :
  (i < m)%nat -> nth i (map f (seq 0 m)) 0 = f i.
Proof.
  intros H. rewrite (nth_indep _ 0 (f 0%nat))
    by (rewrite length_map, length_seq; lia).
  rewrite map_nth, seq_nth by lia. reflexivity.
Qed.

Lemma linspace_length start stop num :
  length (Np.linspace start stop num) = num.
Proof.
  destruct num as [|[|n]]; try reflexivity.
  rewrite linspace_unfold, last_length, length_map, length_seq. reflexivity.
Qed.

Lemma linspace_nth start stop n i :
  (i <= S n)%nat ->
  nth i (Np.linspace start stop (S (S n))) 0
  == start + inject_Z (Z.of_nat i)
             * ((stop - start) / inject_Z (Z.of_nat (S n))).
Proof.
  intros Hi. rewrite linspace_unfold.
  destruct (Nat.eq_dec i (S n)) as [->|Hne].
  - rewrite app_nth2 by (rewrite length_map, length_seq; lia).
    rewrite length_map, length_seq, Nat.sub_diag. cbn [nth].
    field. intros E.
    assert (H : 0 < inject_Z (Z.of_nat (S n))) by (apply inject_Z_pos; lia).
    lra.
  - rewrite app_nth1 by (rewrite length_map, length_seq; lia).
    rewrite nth_map_seq by lia. ring.
Qed.

Lemma linspace_last start stop n :
  nth (S n) (Np.linspace start stop (S (S n))) 0 = stop.
Proof.
  rewrite linspace_unfold.
  rewrite app_nth2 by (rewrite length_map, length_seq; lia).
  now rewrite length_map, length_seq, Nat.sub_diag.
Qed.

Lemma linspace_step start stop n i :
  (i + 1 <= S n)%nat ->
  nth (i + 1) (Np.linspace start stop (S (S n))) 0
  - nth i (Np.linspace start stop (S (S n))) 0
  == (stop - start) / inject_Z (Z.of_nat (S n)).
Proof.
  intros Hi. rewrite !linspace_nth by lia.
  rewrite Nat2Z.inj_add, inject_Z_plus. change (inject_Z (Z.of_nat 1)) with 1.
  ring.
Qed.

Lemma linspace_ascending start stop num :
  start <= stop -> ascending (Np.linspace start stop num).
Proof.
  intros Hle. destruct num as [|[|n]]; try (intros i Hi; simpl in Hi; lia).
  intros i Hi. rewrite linspace_length in Hi.
  pose proof (linspace_step start stop n i ltac:(lia)) as Hstep.
  assert (Hpos : 0 < inject_Z (Z.of_nat (S n))) by (apply inject_Z_pos; lia).
  assert (H0 : 0 <= (stop - start) / inject_Z (Z.of_nat (S n)))
    by (apply Qle_shift_div_l; trivial; lra).
  lra.
Qed.

(** X17: [np.linspace(start, stop, num)] with [num >= 2] and
    [start <= stop] has [num] samples, starts at [start], ends at [stop]
    itself, is non-decreasing, and any two neighbours are
    [(stop - start) / (num - 1)] apart. *)
Theorem linspace_grid start stop n :
  start <= stop ->
  let grid := Np.linspace start stop (S (S n)) in
  length grid = S (S n)
  /\ nth 0 grid 0 == start
  /\ nth (S n) grid 0 = stop
  /\ ascending grid
  /\ forall i, (i + 1 < length grid)%nat ->
               nth (i + 1) grid 0 - nth i grid 0
               == (stop - start) / inject_Z (Z.of_nat (S n)).
Proof.
  intros Hle grid. subst grid.
  assert (Hstep : forall i, (i + 1 < length (Np.linspace start stop (S (S n))))%nat ->
            nth (i + 1) (Np.linspace start stop (S (S n))) 0
            - nth i (Np.linspace start stop (S (S n))) 0
            == (stop - start) / inject_Z (Z.of_nat (S n))).
  { intros i Hi. rewrite linspace_length in Hi. apply linspace_step. lia. }
  split; [apply linspace_length|].
  split; [rewrite linspace_nth by lia; change (inject_Z (Z.of_nat 0)) with 0;
          ring|].
  split; [apply linspace_last|].
  split; [now apply linspace_ascending | exact Hstep].
Qed.

(** Five samples from 0 to 100. *)
Lemma linspace_grid_witness :
  let grid := Np.linspace 0 100 5 in
  length grid = 5%nat
  /\ nth 0 grid 0 == 0
  /\ nth 4 grid 0 = 100
  /\ ascending grid
  /\ forall i, (i + 1 < length grid)%nat ->
               nth (i + 1) grid 0 - nth i grid 0
               == (100 - 0) / inject_Z (Z.of_nat 4).
Proof.
  apply (linspace_grid 0 100 3). lra.
Defined.

(** ** Rounding keeps whole hundredths as bounds *)

Lemma rint_ge (n : Z) (x : Q) : inject_Z n <= x -> (n <= rint x)%Z.
Proof.
  intros H. apply Qfloor_resp_le in H. rewrite Qfloor_Z in H.
  unfold rint.
  destruct (Qcompare _ _); [destruct (Z.even _)| |]; lia.
Qed.

Lemma rint_le (n : Z) (x : Q) : x <= inject_Z n -> (rint x <= n)%Z.
Proof.
  intros H. pose proof (Qfloor_le x) as Hf.
  assert (Hfn : (Qfloor x <= n)%Z)
    by (apply Qfloor_resp_le in H; now rewrite Qfloor_Z in H).
  assert (Hup : 1 # 2 <= x - inject_Z (Qfloor x) -> (Qfloor x + 1 <= n)%Z).
  { intros Hhalf.
    assert (Hlt : inject_Z (Qfloor x) < inject_Z n) by lra.
    rewrite <- Zlt_Qlt in Hlt. lia. }
  unfold rint.
  destruct (Qcompare_spec (x - inject_Z (Qfloor x)) (1 # 2)) as [E|E|E].
  - destruct (Z.even _); [lia|]. apply Hup. lra.
  - lia.
  - apply Hup. lra.
Qed.

Lemma round2_bounds (lo hi : Z) (x : Q) :
  inject_Z lo / 100 <= x -> x <= inject_Z hi / 100 ->
  inject_Z lo / 100 <= round2 x /\ round2 x <= inject_Z hi / 100.
Proof.
  intros Hlo Hhi. unfold round2.
  assert (E : forall q, q / 100 == q * (1 # 100)) by (intros; reflexivity).
  rewrite !E in *.
  assert (H1 : (lo <= rint (x * 100))%Z) by (apply rint_ge; lra).
  assert (H2 : (rint (x * 100) <= hi)%Z) by (apply rint_le; lra).
  rewrite Zle_Qle in H1, H2. split; lra.
Qed.

(** ** The two pages *)

Lemma validate_inputs_fst ps ks pg :
  fst (validate_inputs (mk_env ps ks pg)) = validate ps ks.
Proof.
  unfold validate, validate_inputs. cbn [premiums strikes page].
  destruct (any_nonpositive ps); [reflexivity|].
  destruct ((1 <? length ks)%nat && negb (all_ascending ks)); reflexivity.
Qed.

Lemma validate_inputs_accepts ps ks pg :
  validate ps ks = true ->
  validate_inputs (mk_env ps ks pg) = (true, mk_env ps ks pg).
Proof.
  intros H. rewrite <- (validate_inputs_fst ps ks pg) in H.
  revert H. unfold validate_inputs. cbn [premiums strikes page].
  destruct (any_nonpositive ps); [discriminate|].
  destruct ((1 <? length ks)%nat && negb (all_ascending ks));
    [discriminate | reflexivity].
Qed.

Lemma validate_inputs_refuses ps ks pg :
  validate ps ks = false ->
  exists msg,
    validate_inputs (mk_env ps ks pg)
    = (false, mk_env ps ks (pg ++ [msg])%list).
Proof.
  intros H. rewrite <- (validate_inputs_fst ps ks pg) in H.
  revert H. unfold validate_inputs, St.error. cbn [premiums strikes page].
  destruct (any_nonpositive ps); [eauto|].
  destruct ((1 <? length ks)%nat && negb (all_ascending ks));
    [eauto | discriminate].
Qed.

Lemma grid_facts :
  length (Np.linspace 0 5000 1000) = 1000%nat
  /\ ascending (Np.linspace 0 5000 1000)
  /\ nth 0 (Np.linspace 0 5000 1000) 0 == 0
  /\ nth 999 (Np.linspace 0 5000 1000) 0 = 5000.
Proof.
  split; [apply linspace_length|].
  split; [apply linspace_ascending; lra|].
  split; [|apply (linspace_last 0 5000 998)].
  rewrite (linspace_nth 0 5000 998 0) by lia.
  change (inject_Z (Z.of_nat 0)) with 0. ring.
Qed.

(** What follows the validator on either page, for a payoff vector with
    one value per grid point: both steps succeed, and every breakeven is
    the rounded chord root of a segment of the grid. *)
Lemma page_pipeline (payoff : Np.ndarray) :
  length payoff = 1000%nat ->
  exists bs s,
    find_breakeven_points payoff (Np.linspace 0 5000 1000) default_tolerance
    = Ok bs
    /\ display_summary payoff bs = Ok s
    /\ (length bs <= 999)%nat
    /\ forall b, In b bs ->
         0 <= b /\ b <= 5000
         /\ exists i,
              (i + 1 < 1000)%nat
              /\ straddles (nth i payoff 0) (nth (i + 1) payoff 0)
              /\ default_tolerance
                 < Qabs (nth (i + 1) payoff 0 - nth i payoff 0)
              /\ nth i (Np.linspace 0 5000 1000) 0
                 <= chord_root payoff (Np.linspace 0 5000 1000) i
              /\ chord_root payoff (Np.linspace 0 5000 1000) i
                 <= nth (i + 1) (Np.linspace 0 5000 1000) 0
              /\ b = round2 (chord_root payoff (Np.linspace 0 5000 1000) i).
Proof.
  intros Hlen.
  assert (Htol : 0 <= default_tolerance) by (unfold default_tolerance; lra).
  destruct grid_facts as [Hglen [Hasc [Hfirst Hlast]]].
  unfold find_breakeven_points.
  destruct (for_each_outcome payoff (Np.linspace 0 5000 1000)
              default_tolerance _ Htol (segment_in_range payoff) [])
    as [[r [Er [Hr _]]]|[_ [i [Hi [_ Hs]]]]];
    [|apply segment_in_range in Hi; lia].
  rewrite Er. cbn [bind].
  rewrite length_seq in Hr. cbn [length] in Hr.
  assert (Hs : exists s, display_summary payoff (list_set r) = Ok s).
  { destruct payoff as [|x l]; [discriminate|].
    unfold display_summary, np_max, np_min. cbn [bind]. eauto. }
  destruct Hs as [s Hs].
  exists (list_set r), s.
  split; [reflexivity|]. split; [exact Hs|]. split.
  - pose proof (list_set_length r). lia.
  - intros b Hb. apply list_set_incl in Hb.
    destruct (for_each_elements payoff _ default_tolerance _
                (segment_in_range payoff) _ _ Er b Hb)
      as [[]|[i [Hi [Hrec ->]]]].
    apply segment_in_range in Hi. apply records_true in Hrec.
    destruct Hrec as [Hstr Hsteep].
    destruct (chord_root_in_segment payoff (Np.linspace 0 5000 1000) i Hstr
                (steep_nonzero _ _ Htol Hsteep) (Hasc i ltac:(lia)))
      as [Hlo Hhi].
    pose proof (ascending_mono _ 0 i Hasc ltac:(lia) ltac:(lia)) as H0.
    pose proof (ascending_mono _ (i + 1) 999 Hasc ltac:(lia) ltac:(lia))
      as H1.
    rewrite Hlast in H1.
    assert (E0 : inject_Z 0 / 100 == 0) by reflexivity.
    assert (E5 : inject_Z 500000 / 100 == 5000) by reflexivity.
    destruct (round2_bounds 0 500000
                (chord_root payoff (Np.linspace 0 5000 1000) i)) as [A B];
      [lra | lra |].
    split; [lra|]. split; [lra|].
    exists i. repeat split; trivial. lia.
Qed.

Lemma validate_pair P1 P2 K1 K2 :
  validate [P1; P2] [K1; K2] = true <-> 0 < P1 /\ 0 < P2 /\ K1 <= K2.
Proof.
  rewrite validate_true. split.
  - intros [Hp Hk]. repeat split.
    + apply Hp. now left.
    + apply Hp. right. now left.
    + apply (Hk 0%nat). simpl. lia.
  - intros [H1 [H2 HK]]. split.
    + intros p [<-|[<-|[]]]; trivial.
    + intros i Hi. simpl in Hi. destruct i as [|i]; [exact HK | lia].
Qed.

Lemma validate_quad Pa Pb Pc Pd Ka Kb Kc Kd :
  validate [Pa; Pb; Pc; Pd] [Ka; Kb; Kc; Kd] = true <->
  (0 < Pa /\ 0 < Pb /\ 0 < Pc /\ 0 < Pd) /\ Ka <= Kb /\ Kb <= Kc /\ Kc <= Kd.
Proof.
  rewrite validate_true. split.
  - intros [Hp Hk]. repeat split.
    + apply Hp. now left.
    + apply Hp. right. now left.
    + apply Hp. right. right. now left.
    + apply Hp. right. right. right. now left.
    + apply (Hk 0%nat). simpl. lia.
    + apply (Hk 1%nat). simpl. lia.
    + apply (Hk 2%nat). simpl. lia.
  - intros [[H1 [H2 [H3 H4]]] [Ha [Hb Hc]]]. split.
    + intros p [<-|[<-|[<-|[<-|[]]]]]; trivial.
    + intros i Hi. simpl in Hi.
      destruct i as [|[|[|i]]]; trivial; lia.
Qed.

(** Unfold a page whose inputs the validator accepts, and run the two
    steps behind it on the payoff vector [payoff]. *)
Ltac run_page Hvalid payoff :=
  rewrite (validate_inputs_accepts _ _ _ Hvalid);
  cbv beta iota zeta; cbn [page fst snd];
  match goal with
  | |- context [find_breakeven_points ?p _ _] => set (payoff := p) in *
  end;
  let bs := fresh "bs" in
  let s := fresh "s" in
  let Hf := fresh "Hfind" in
  let Hs := fresh "Hsummary" in
  let Hn := fresh "Hcount" in
  let Hb := fresh "Hbreakevens" in
  let Hlen := fresh "Hlen" in
  assert (Hlen : length payoff = 1000%nat)
    by (subst payoff;
        rewrite ?bull_call_as_map, ?iron_condor_as_map, length_map;
        apply linspace_length);
  destruct (page_pipeline payoff Hlen) as [bs [s [Hf [Hs [Hn Hb]]]]];
  rewrite Hf; cbn [bind]; rewrite Hs; cbn [bind];
  pose proof (display_summary_ok _ _ _ Hs) as
    [Hmax_in [Hmax_ub [Hmin_in [Hmin_lb Hshown]]]].

(** X18: a click on the Bull Call Spread page computes nothing and adds
    one message when a premium is [<= 0] or the strikes are out of order;
    otherwise, whatever the lot size, it adds no message and succeeds: the
    chart plots the payoff over the 1000-point grid and the summary lists
    at most 999 breakevens, each between 0 and 5000. *)
Theorem bull_call_spread_clicked_outcome K1 P1 K2 P2 lot pg :
  (P1 <= 0 \/ P2 <= 0 \/ K2 < K1 ->
   snd (bull_call_spread_clicked K1 P1 K2 P2 lot pg) = Ok None
   /\ exists msg,
        fst (bull_call_spread_clicked K1 P1 K2 P2 lot pg)
        = (pg ++ [msg])%list)
  /\ (0 < P1 -> 0 < P2 -> K1 <= K2 ->
      fst (bull_call_spread_clicked K1 P1 K2 P2 lot pg) = pg
      /\ exists v,
           snd (bull_call_spread_clicked K1 P1 K2 P2 lot pg) = Ok (Some v)
           /\ trace_x (chart v) = Np.linspace 0 5000 1000
           /\ trace_y (chart v)
              = calculate_bull_call_spread_payoff
                  (Np.linspace 0 5000 1000) K1 P1 K2 P2 lot
           /\ (length (breakevens (shown v)) <= 999)%nat
           /\ forall b, In b (breakevens (shown v)) -> 0 <= b /\ b <= 5000).
Proof.
  unfold bull_call_spread_clicked. split.
  - intros Hbad.
    assert (Hv : validate [P1; P2] [K1; K2] = false).
    { apply not_true_iff_false. rewrite validate_pair. lra. }
    destruct (validate_inputs_refuses _ _ pg Hv) as [msg ->].
    cbn [page fst snd]. eauto.
  - intros H1 H2 HK.
    assert (Hv : validate [P1; P2] [K1; K2] = true)
      by (apply validate_pair; auto).
    run_page Hv payoff.
    split; [reflexivity|]. eexists. split; [reflexivity|].
    cbn [chart shown trace_x trace_y create_payoff_chart].
    rewrite Hshown. repeat split; trivial; now apply Hbreakevens.
Qed.

(** The scenario's spread with the strikes exchanged is refused; as it
    stands it is computed. *)
Lemma bull_call_spread_clicked_outcome_witness :
  (snd (bull_call_spread_clicked 110 5 100 2 1 []) = Ok None
   /\ exists msg,
        fst (bull_call_spread_clicked 110 5 100 2 1 []) = ([] ++ [msg])%list)
  /\ (fst (bull_call_spread_clicked 100 5 110 2 1 []) = []
      /\ exists v,
           snd (bull_call_spread_clicked 100 5 110 2 1 []) = Ok (Some v)
           /\ trace_x (chart v) = Np.linspace 0 5000 1000
           /\ trace_y (chart v)
              = calculate_bull_call_spread_payoff
                  (Np.linspace 0 5000 1000) 100 5 110 2 1
           /\ (length (breakevens (shown v)) <= 999)%nat
           /\ forall b, In b (breakevens (shown v)) -> 0 <= b /\ b <= 5000).
Proof.
  split.
  - apply (bull_call_spread_clicked_outcome 110 5 100 2 1 []).
    right. right. lra.
  - apply (bull_call_spread_clicked_outcome 100 5 110 2 1 []); lra.
Defined.

Lemma grid_last_in : In 5000 (Np.linspace 0 5000 1000).
Proof.
  destruct grid_facts as [Hlen [_ [_ Hlast]]].
  assert (H : (999 < length (Np.linspace 0 5000 1000))%nat) by lia.
  apply (nth_In _ 0) in H. now rewrite Hlast in H.
Qed.

Lemma grid_first_in :
  exists x, In x (Np.linspace 0 5000 1000) /\ x == 0.
Proof.
  destruct grid_facts as [Hlen [_ [Hfirst _]]].
  exists (nth 0 (Np.linspace 0 5000 1000) 0).
  split; [apply nth_In; lia | exact Hfirst].
Qed.

Lemma grid_step i :
  (i + 1 < 1000)%nat ->
  nth (i + 1) (Np.linspace 0 5000 1000) 0
  - nth i (Np.linspace 0 5000 1000) 0 == 5000 # 999.
Proof.
  intros Hi. rewrite (linspace_step 0 5000 998 i) by lia. reflexivity.
Qed.

(** X19: for accepted inputs with both strikes between 0 and 5000 and a
    positive lot size, the figures shown on the Bull Call Spread page are
    exact, not approximations on the grid: the maximum profit is
    [(sellStrike - buyStrike - netDebit) * lot] and the maximum loss
    [-netDebit * lot]. *)
Theorem bull_call_spread_clicked_figures K1 P1 K2 P2 lot pg :
  0 < P1 -> 0 < P2 -> 0 <= K1 -> K1 <= K2 -> K2 <= 5000 -> (0 < lot)%Z ->
  exists v,
    snd (bull_call_spread_clicked K1 P1 K2 P2 lot pg) = Ok (Some v)
    /\ max_profit (shown v) == (K2 - K1 - (P1 - P2)) * inject_Z lot
    /\ max_loss (shown v) == - (P1 - P2) * inject_Z lot.
Proof.
  intros H1 H2 HK0 HK HK5 Hlot.
  assert (Hv : validate [P1; P2] [K1; K2] = true)
    by (apply validate_pair; auto).
  unfold bull_call_spread_clicked. run_page Hv payoff.
  eexists. split; [reflexivity|]. cbn [shown].
  subst payoff. rewrite bull_call_as_map in *.
  apply in_map_iff in Hmax_in, Hmin_in.
  destruct Hmax_in as [Smax [Emax _]], Hmin_in as [Smin [Emin _]].
  destruct (bull_call_point_bounds K1 P1 K2 P2 lot Smax HK ltac:(lia))
    as [_ Hub].
  destruct (bull_call_point_bounds K1 P1 K2 P2 lot Smin HK ltac:(lia))
    as [Hlb _].
  rewrite Emax in Hub. rewrite Emin in Hlb.
  destruct (bull_call_point_regions K1 P1 K2 P2 lot 5000 HK)
    as [_ [_ Htop]].
  destruct grid_first_in as [x0 [Hx0 Ex0]].
  destruct (bull_call_point_regions K1 P1 K2 P2 lot x0 HK)
    as [Hbottom _].
  pose proof (Hmax_ub _ (in_map _ _ _ grid_last_in)) as Hge.
  pose proof (Hmin_lb _ (in_map _ _ _ Hx0)) as Hle.
  rewrite (Htop HK5) in Hge. rewrite Hbottom in Hle by lra.
  split; apply Qle_antisym; trivial.
Qed.

(** The scenario of the specification: maximum profit 7, maximum loss -3. *)
Lemma bull_call_spread_clicked_figures_witness :
  exists v,
    snd (bull_call_spread_clicked 100 5 110 2 1 []) = Ok (Some v)
    /\ max_profit (shown v) == (110 - 100 - (5 - 2)) * inject_Z 1
    /\ max_loss (shown v) == - (5 - 2) * inject_Z 1.
Proof.
  apply (bull_call_spread_clicked_figures 100 5 110 2 1 []); lra || lia.
Defined.

Lemma bull_call_point_sign K1 P1 K2 P2 lot S :
  (0 < lot)%Z -> 0 < P1 - P2 -> P1 - P2 < K2 - K1 ->
  (S < K1 + (P1 - P2) -> bull_call_point K1 P1 K2 P2 lot S < 0)
  /\ (K1 + (P1 - P2) < S -> 0 < bull_call_point K1 P1 K2 P2 lot S).
Proof.
  intros Hlot Hd0 Hd1. apply inject_Z_pos in Hlot.
  unfold bull_call_point. split; intros HS.
  - apply Qmult_neg_pos; trivial. split_max; lra.
  - apply Qmult_lt_0_compat; trivial. split_max; lra.
Qed.

(** X20: for accepted inputs with a positive lot size and a net debit
    strictly between 0 and the distance of the strikes, every breakeven
    shown on the Bull Call Spread page is within one grid step plus the
    rounding, [5000/999 + 0.005], of the true breakeven
    [buyStrike + netDebit]. *)
Theorem bull_call_spread_clicked_breakevens K1 P1 K2 P2 lot pg :
  0 < P1 -> 0 < P2 -> (0 < lot)%Z ->
  0 < P1 - P2 -> P1 - P2 < K2 - K1 ->
  exists v,
    snd (bull_call_spread_clicked K1 P1 K2 P2 lot pg) = Ok (Some v)
    /\ forall b, In b (breakevens (shown v)) ->
                 Qabs (b - (K1 + (P1 - P2))) <= (5000 # 999) + (1 # 200).
Proof.
  intros H1 H2 Hlot Hd0 Hd1.
  assert (Hv : validate [P1; P2] [K1; K2] = true)
    by (apply validate_pair; repeat split; trivial; lra).
  unfold bull_call_spread_clicked. run_page Hv payoff.
  eexists. split; [reflexivity|]. cbn [shown]. rewrite Hshown.
  intros b Hb.
  destruct (Hbreakevens b Hb) as [_ [_ [i [Hi [Hstr [_ [Hlo [Hhi ->]]]]]]]].
  destruct grid_facts as [Hglen [Hasc _]].
  pose proof (grid_step i Hi) as Hstep.
  subst payoff. rewrite bull_call_as_map in *.
  rewrite !nth_map_Q in Hstr by lia.
  set (grid := Np.linspace 0 5000 1000) in *.
  set (c := chord_root _ grid i) in *.
  pose proof (Hasc i ltac:(lia)) as Hseg.
  destruct (bull_call_point_sign K1 P1 K2 P2 lot (nth i grid 0)
              Hlot Hd0 Hd1) as [Hneg0 Hpos0].
  destruct (bull_call_point_sign K1 P1 K2 P2 lot (nth (i + 1) grid 0)
              Hlot Hd0 Hd1) as [Hneg1 Hpos1].
  assert (Hleft : nth i grid 0 <= K1 + (P1 - P2)).
  { apply Qnot_lt_le. intros Hc.
    pose proof (Hpos0 Hc). pose proof (Hpos1 ltac:(lra)).
    unfold straddles in Hstr. lra. }
  assert (Hright : K1 + (P1 - P2) <= nth (i + 1) grid 0).
  { apply Qnot_lt_le. intros Hc.
    pose proof (Hneg1 Hc). pose proof (Hneg0 ltac:(lra)).
    unfold straddles in Hstr. lra. }
  pose proof (round2_error c) as Hr.
  apply Qabs_Qle_condition in Hr. apply Qabs_Qle_condition.
  split; lra.
Qed.

Lemma bull_call_spread_clicked_breakevens_witness :
  exists v,
    snd (bull_call_spread_clicked 100 5 110 2 1 []) = Ok (Some v)
    /\ forall b, In b (breakevens (shown v)) ->
                 Qabs (b - (100 + (5 - 2))) <= (5000 # 999) + (1 # 200).
Proof.
  apply (bull_call_spread_clicked_breakevens 100 5 110 2 1 []); lra || lia.
Defined.

Lemma grid_nth i :
  (i <= 999)%nat ->
  nth i (Np.linspace 0 5000 1000) 0 == inject_Z (Z.of_nat i) * (5000 # 999).
Proof.
  intros Hi. rewrite (linspace_nth 0 5000 998 i) by lia.
  assert (E : (5000 - 0) / inject_Z (Z.of_nat 999) == 5000 # 999)
    by reflexivity.
  rewrite E. ring.
Qed.

(** An interval inside [[0, 5000]] at least one grid step long holds a
    grid point. *)
Lemma grid_point_between (lo hi : Q) :
  0 <= lo -> hi <= 5000 -> 5000 # 999 <= hi - lo ->
  exists x, In x (Np.linspace 0 5000 1000) /\ lo <= x /\ x <= hi.
Proof.
  intros Hlo Hhi Hwide.
  set (q := lo * (999 # 5000)).
  pose proof (Qle_ceiling q) as Hc0.
  pose proof (Qceiling_lt q) as Hc1.
  unfold Zminus in Hc1. rewrite inject_Z_plus in Hc1.
  change (inject_Z (- (1))) with (- (1)) in Hc1.
  set (z := Qceiling q) in *.
  assert (Hz0 : (0 <= z)%Z).
  { apply Z.le_ngt. intros Hneg.
    assert (H : inject_Z z < inject_Z 0) by now rewrite <- Zlt_Qlt.
    change (inject_Z 0) with 0 in H. unfold q in Hc0. lra. }
  assert (Hz9 : (z <= 999)%Z).
  { rewrite Zle_Qle. change (inject_Z 999) with 999. unfold q in Hc1. lra. }
  exists (nth (Z.to_nat z) (Np.linspace 0 5000 1000) 0).
  destruct grid_facts as [Hlen _].
  split; [apply nth_In; lia|].
  rewrite grid_nth by lia. rewrite Z2Nat.id by trivial.
  unfold q in *. split; lra.
Qed.

Lemma iron_condor_point_top_closed Kbp Pbp Ksp Psp Ksc Psc Kbc Pbc lot S :
  Kbp <= Ksp -> Ksc <= Kbc -> Ksp <= S -> S <= Ksc ->
  iron_condor_point Kbp Pbp Ksp Psp Ksc Psc Kbc Pbc lot S
  == (Psp - Pbp + Psc - Pbc) * inject_Z lot.
Proof.
  intros Hput Hcall Hlo Hhi. unfold iron_condor_point.
  apply Qmult_comp; [|reflexivity]. split_max; lra.
Qed.

Lemma iron_condor_point_floor Kbp Pbp Ksp Psp Ksc Psc Kbc Pbc lot S :
  Kbp <= Ksp -> Ksp <= Ksc -> Ksc <= Kbc -> (0 <= lot)%Z ->
  (Psp - Pbp + Psc - Pbc - Qmax (Ksp - Kbp) (Kbc - Ksc)) * inject_Z lot
  <= iron_condor_point Kbp Pbp Ksp Psp Ksc Psc Kbc Pbc lot S.
Proof.
  intros Hput Hmid Hcall Hlot. apply inject_Z_nonneg in Hlot.
  unfold iron_condor_point.
  apply Qmult_le_compat_r; trivial. split_max; lra.
Qed.

Lemma iron_condor_point_wing Kbp Pbp Ksp Psp Ksc Psc Kbc Pbc lot S :
  Kbp <= Ksp -> Ksp <= Ksc -> Ksc <= Kbc ->
  (S <= Kbp ->
   iron_condor_point Kbp Pbp Ksp Psp Ksc Psc Kbc Pbc lot S
   == (Psp - Pbp + Psc - Pbc - (Ksp - Kbp)) * inject_Z lot)
  /\ (Kbc <= S ->
      iron_condor_point Kbp Pbp Ksp Psp Ksc Psc Kbc Pbc lot S
      == (Psp - Pbp + Psc - Pbc - (Kbc - Ksc)) * inject_Z lot).
Proof.
  intros Hput Hmid Hcall. unfold iron_condor_point.
  split; intros HS; apply Qmult_comp; try reflexivity; split_max; lra.
Qed.

(** X21: a click on the Iron Condor page computes nothing and adds one
    message when a premium is [<= 0] or two neighbouring strikes are out
    of order; otherwise, whatever the lot size, it adds no message and
    succeeds: the chart plots the payoff over the 1000-point grid and the
    summary lists at most 999 breakevens, each between 0 and 5000. *)
Theorem iron_condor_clicked_outcome
    Kbp Pbp Ksp Psp Ksc Psc Kbc Pbc lot pg :
  (Pbp <= 0 \/ Psp <= 0 \/ Psc <= 0 \/ Pbc <= 0
   \/ Ksp < Kbp \/ Ksc < Ksp \/ Kbc < Ksc ->
   snd (iron_condor_clicked Kbp Pbp Ksp Psp Ksc Psc Kbc Pbc lot pg) = Ok None
   /\ exists msg,
        fst (iron_condor_clicked Kbp Pbp Ksp Psp Ksc Psc Kbc Pbc lot pg)
        = (pg ++ [msg])%list)
  /\ (0 < Pbp /\ 0 < Psp /\ 0 < Psc /\ 0 < Pbc ->
      Kbp <= Ksp -> Ksp <= Ksc -> Ksc <= Kbc ->
      fst (iron_condor_clicked Kbp Pbp Ksp Psp Ksc Psc Kbc Pbc lot pg) = pg
      /\ exists v,
           snd (iron_condor_clicked Kbp Pbp Ksp Psp Ksc Psc Kbc Pbc lot pg)
           = Ok (Some v)
           /\ trace_x (chart v) = Np.linspace 0 5000 1000
           /\ trace_y (chart v)
              = calculate_iron_condor_payoff
                  (Np.linspace 0 5000 1000)
                  Kbp Pbp Ksp Psp Ksc Psc Kbc Pbc lot
           /\ (length (breakevens (shown v)) <= 999)%nat
           /\ forall b, In b (breakevens (shown v)) -> 0 <= b /\ b <= 5000).
Proof.
  unfold iron_condor_clicked. split.
  - intros Hbad.
    assert (Hv : validate [Pbp; Psp; Psc; Pbc] [Kbp; Ksp; Ksc; Kbc] = false).
    { apply not_true_iff_false. rewrite validate_quad. lra. }
    destruct (validate_inputs_refuses _ _ pg Hv) as [msg ->].
    cbn [page fst snd]. eauto.
  - intros HP Ha Hb Hc.
    assert (Hv : validate [Pbp; Psp; Psc; Pbc] [Kbp; Ksp; Ksc; Kbc] = true)
      by (apply validate_quad; auto).
    run_page Hv payoff.
    split; [reflexivity|]. eexists. split; [reflexivity|].
    cbn [chart shown trace_x trace_y create_payoff_chart].
    rewrite Hshown. repeat split; trivial; now apply Hbreakevens.
Qed.

(** The scenario's condor with a zero premium is refused; as it stands it
    is computed. *)
Lemma iron_condor_clicked_outcome_witness :
  (snd (iron_condor_clicked 90 0 100 5 110 5 120 2 1 []) = Ok None
   /\ exists msg,
        fst (iron_condor_clicked 90 0 100 5 110 5 120 2 1 [])
        = ([] ++ [msg])%list)
  /\ (fst (iron_condor_clicked 90 2 100 5 110 5 120 2 1 []) = []
      /\ exists v,
           snd (iron_condor_clicked 90 2 100 5 110 5 120 2 1 [])
           = Ok (Some v)
           /\ trace_x (chart v) = Np.linspace 0 5000 1000
           /\ trace_y (chart v)
              = calculate_iron_condor_payoff
                  (Np.linspace 0 5000 1000) 90 2 100 5 110 5 120 2 1
           /\ (length (breakevens (shown v)) <= 999)%nat
           /\ forall b, In b (breakevens (shown v)) -> 0 <= b /\ b <= 5000).
Proof.
  split.
  - apply (iron_condor_clicked_outcome 90 0 100 5 110 5 120 2 1 []).
    left. lra.
  - apply (iron_condor_clicked_outcome 90 2 100 5 110 5 120 2 1 []);
      repeat split; lra.
Defined.

(** X22: for accepted inputs with all strikes between 0 and 5000 and a
    positive lot size, the Iron Condor page shows as maximum loss exactly
    [(netCredit - max(sellPut - buyPut, buyCall - sellCall)) * lot]; its
    maximum profit is at most [netCredit * lot], and exactly that whenever
    the two sold strikes are at least one grid step, [5000/999], apart. *)
Theorem iron_condor_clicked_figures
    Kbp Pbp Ksp Psp Ksc Psc Kbc Pbc lot pg :
  0 < Pbp /\ 0 < Psp /\ 0 < Psc /\ 0 < Pbc ->
  0 <= Kbp -> Kbp <= Ksp -> Ksp <= Ksc -> Ksc <= Kbc -> Kbc <= 5000 ->
  (0 < lot)%Z ->
  exists v,
    snd (iron_condor_clicked Kbp Pbp Ksp Psp Ksc Psc Kbc Pbc lot pg)
    = Ok (Some v)
    /\ max_loss (shown v)
       == (Psp - Pbp + Psc - Pbc - Qmax (Ksp - Kbp) (Kbc - Ksc))
          * inject_Z lot
    /\ max_profit (shown v) <= (Psp - Pbp + Psc - Pbc) * inject_Z lot
    /\ (5000 # 999 <= Ksc - Ksp ->
        max_profit (shown v) == (Psp - Pbp + Psc - Pbc) * inject_Z lot).
Proof.
  intros HP H0 Ha Hb Hc H5 Hlot.
  assert (Hv : validate [Pbp; Psp; Psc; Pbc] [Kbp; Ksp; Ksc; Kbc] = true)
    by (apply validate_quad; auto).
  unfold iron_condor_clicked. run_page Hv payoff.
  eexists. split; [reflexivity|]. cbn [shown].
  subst payoff. rewrite iron_condor_as_map in *.
  set (f := iron_condor_point Kbp Pbp Ksp Psp Ksc Psc Kbc Pbc lot) in *.
  apply in_map_iff in Hmax_in, Hmin_in.
  destruct Hmax_in as [Smax [Emax _]], Hmin_in as [Smin [Emin _]].
  pose proof (iron_condor_point_le_top Kbp Pbp Ksp Psp Ksc Psc Kbc Pbc lot
                Smax Ha Hc ltac:(lia)) as Hub.
  pose proof (iron_condor_point_floor Kbp Pbp Ksp Psp Ksc Psc Kbc Pbc lot
                Smin Ha Hb Hc ltac:(lia)) as Hlb.
  fold f in Hub, Hlb. rewrite Emax in Hub. rewrite Emin in Hlb.
  split; [|split; [exact Hub|]].
  - apply Qle_antisym; [|exact Hlb].
    destruct grid_first_in as [x0 [Hx0 Ex0]].
    destruct (iron_condor_point_wing Kbp Pbp Ksp Psp Ksc Psc Kbc Pbc lot
                x0 Ha Hb Hc) as [Hput _].
    destruct (iron_condor_point_wing Kbp Pbp Ksp Psp Ksc Psc Kbc Pbc lot
                5000 Ha Hb Hc) as [_ Hcall].
    fold f in Hput, Hcall.
    pose proof (Hmin_lb _ (in_map f _ _ Hx0)) as Hle0.
    pose proof (Hmin_lb _ (in_map f _ _ grid_last_in)) as Hle5.
    rewrite Hput in Hle0 by lra. rewrite (Hcall H5) in Hle5.
    destruct (Qmax_cases (Ksp - Kbp) (Kbc - Ksc)) as [[_ E]|[_ E]];
      rewrite E; trivial.
  - intros Hwide. apply Qle_antisym; [exact Hub|].
    destruct (grid_point_between Ksp Ksc ltac:(lra) ltac:(lra) Hwide)
      as [x [Hx [Hxlo Hxhi]]].
    pose proof (Hmax_ub _ (in_map f _ _ Hx)) as Hge.
    unfold f in Hge at 1.
    now rewrite iron_condor_point_top_closed in Hge.
Qed.

(** The scenario of the specification: maximum loss -4, maximum profit 6. *)
Lemma iron_condor_clicked_figures_witness :
  exists v,
    snd (iron_condor_clicked 90 2 100 5 110 5 120 2 1 []) = Ok (Some v)
    /\ max_loss (shown v)
       == (5 - 2 + 5 - 2 - Qmax (100 - 90) (120 - 110)) * inject_Z 1
    /\ max_profit (shown v) <= (5 - 2 + 5 - 2) * inject_Z 1
    /\ (5000 # 999 <= 110 - 100 ->
        max_profit (shown v) == (5 - 2 + 5 - 2) * inject_Z 1).
Proof.
  apply (iron_condor_clicked_figures 90 2 100 5 110 5 120 2 1 []);
    lra || lia.
Defined.

(** ** A rising payoff crosses zero once *)

Lemma filter_none {A} (f : A -> bool) (l : list A) :
  (forall y, In y l -> f y = false) -> filter f l = [].
Proof.
  induction l as [|x l IH]; intros H; simpl; [reflexivity|].
  rewrite (H x) by now left. apply IH. intros y Hy. apply H. now right.
Qed.

Lemma list_set_all_equal (l : list Q) :
  (forall x y, In x l -> In y l -> x = y) -> (length (list_set l) <= 1)%nat.
Proof.
  destruct l as [|x l]; intros H; simpl; [lia|].
  rewrite filter_none; [simpl; lia|].
  intros y Hy. apply list_set_incl in Hy.
  rewrite (H y x) by (simpl; auto).
  apply negb_false_iff, Qeq_eq_bool. reflexivity.
Qed.

Section Rising.

Variables (payoff spot_prices : Np.ndarray) (tolerance : Q).

Hypothesis rising : ascending payoff.

Hypothesis one_zero :
  forall i j, (i < length payoff)%nat -> (j < length payoff)%nat ->
              nth i payoff 0 == 0 -> nth j payoff 0 == 0 -> i = j.

(** A recorded segment of a rising payoff goes from a non-positive payoff
    to a non-negative one, and not from zero to zero. *)
Lemma rising_segment i :
  (i + 1 < length payoff)%nat ->
  straddles (nth i payoff 0) (nth (i + 1) payoff 0) ->
  nth i payoff 0 < 0 /\ 0 <= nth (i + 1) payoff 0
  \/ nth i payoff 0 <= 0 /\ 0 < nth (i + 1) payoff 0.
Proof.
  intros Hi Hstr. pose proof (rising i Hi) as Hup.
  assert (Hne : ~ (nth i payoff 0 == 0 /\ nth (i + 1) payoff 0 == 0)).
  { intros [E0 E1].
    pose proof (one_zero i (i + 1) ltac:(lia) Hi E0 E1). lia. }
  unfold straddles in Hstr.
  destruct (Qlt_le_dec (nth i payoff 0) 0) as [Hneg|Hpos].
  - left. split; lra.
  - right. destruct (Qlt_le_dec 0 (nth (i + 1) payoff 0)) as [H1|H1].
    + split; lra.
    + exfalso. apply Hne. split; lra.
Qed.

Lemma rising_neighbours i j :
  (i < j)%nat -> (j + 1 < length payoff)%nat ->
  straddles (nth i payoff 0) (nth (i + 1) payoff 0) ->
  straddles (nth j payoff 0) (nth (j + 1) payoff 0) ->
  j = (i + 1)%nat /\ nth j payoff 0 == 0.
Proof.
  intros Hij Hj Hsi Hsj.
  pose proof (rising_segment i ltac:(lia) Hsi) as Hi'.
  pose proof (rising_segment j Hj Hsj) as Hj'.
  pose proof (ascending_mono payoff (i + 1) j rising ltac:(lia) ltac:(lia))
    as Hmono.
  assert (E1 : nth (i + 1) payoff 0 == 0) by lra.
  assert (Ej : nth j payoff 0 == 0) by lra.
  split; [|exact Ej].
  symmetry. apply one_zero; trivial; lia.
Qed.

Lemma rising_roots_agree i j :
  (i < j)%nat -> (j + 1 < length payoff)%nat ->
  straddles (nth i payoff 0) (nth (i + 1) payoff 0) ->
  straddles (nth j payoff 0) (nth (j + 1) payoff 0) ->
  chord_root payoff spot_prices i == chord_root payoff spot_prices j.
Proof.
  intros Hij Hj Hsi Hsj.
  destruct (rising_neighbours i j Hij Hj Hsi Hsj) as [-> E1].
  pose proof (rising_segment i ltac:(lia) Hsi) as Hi'.
  pose proof (rising_segment (i + 1) Hj Hsj) as Hj'.
  unfold chord_root. rewrite !E1.
  assert (Hp : nth i payoff 0 < 0) by lra.
  assert (Hq : 0 < nth (i + 1 + 1) payoff 0) by lra.
  assert (Ed : Qabs (0 - nth i payoff 0) == - nth i payoff 0)
    by (rewrite Qabs_pos by lra; ring).
  assert (Ep : Qabs (nth i payoff 0) == - nth i payoff 0)
    by (apply Qabs_neg; lra).
  assert (Eq' : Qabs (nth (i + 1 + 1) payoff 0 - 0)
                == nth (i + 1 + 1) payoff 0)
    by (rewrite Qabs_pos by lra; ring).
  rewrite Ed, Ep, Eq'. change (Qabs 0) with 0.
  field. split; lra.
Qed.

Lemma rising_single bs :
  find_breakeven_points payoff spot_prices tolerance = Ok bs ->
  (length bs <= 1)%nat.
Proof.
  unfold find_breakeven_points.
  destruct (for_each _ _ _) as [r|] eqn:E; cbn [bind]; [|discriminate].
  intros [= <-]. apply list_set_all_equal.
  intros x y Hx Hy.
  destruct (for_each_elements payoff spot_prices tolerance _
              (segment_in_range payoff) _ _ E x Hx)
    as [[]|[i [Hi [Hri ->]]]].
  destruct (for_each_elements payoff spot_prices tolerance _
              (segment_in_range payoff) _ _ E y Hy)
    as [[]|[j [Hj [Hrj ->]]]].
  apply segment_in_range in Hi, Hj.
  apply records_true in Hri, Hrj.
  destruct Hri as [Hsi _], Hrj as [Hsj _].
  apply round2_comp.
  destruct (Nat.lt_trichotomy i j) as [Hlt|[->|Hlt]].
  - now apply rising_roots_agree.
  - reflexivity.
  - symmetry. now apply rising_roots_agree.
Qed.

End Rising.

(** X23: for a non-decreasing payoff vector with at most one entry equal
    to zero the finder returns at most one value, whatever the grid and
    the tolerance: the two segments that meet in a grid point of payoff
    zero find the same price. *)
Theorem rising_payoff_single_breakeven payoff spots tol bs :
  ascending payoff ->
  (forall i j, (i < length payoff)%nat -> (j < length payoff)%nat ->
               nth i payoff 0 == 0 -> nth j payoff 0 == 0 -> i = j) ->
  find_breakeven_points payoff spots tol = Ok bs ->
  (length bs <= 1)%nat.
Proof.
  intros Hup Hzero Hfind.
  exact (rising_single payoff spots tol Hup Hzero bs Hfind).
Qed.

(** A payoff that rises through zero at the grid point 105. *)
Lemma rising_payoff_single_breakeven_witness :
  (length [10500 # 100]%Q <= 1)%nat.
Proof.
  apply (rising_payoff_single_breakeven
           [-3; 0; 5] [100; 105; 110] default_tolerance [10500 # 100]).
  - intros i Hi. simpl in Hi.
    destruct i as [|[|i]]; try lia; unfold Qle; simpl; lia.
  - intros i j Hi Hj Ei Ej. simpl in Hi, Hj.
    destruct i as [|[|[|i]]]; try lia; try discriminate Ei;
      destruct j as [|[|[|j]]]; try lia; try discriminate Ej; reflexivity.
  - reflexivity.
Defined.

Lemma grid_injective i j :
  (i <= 999)%nat -> (j <= 999)%nat ->
  nth i (Np.linspace 0 5000 1000) 0 == nth j (Np.linspace 0 5000 1000) 0 ->
  i = j.
Proof.
  intros Hi Hj E. rewrite !grid_nth in E by trivial.
  assert (E' : inject_Z (Z.of_nat i) == inject_Z (Z.of_nat j)).
  { set (a := inject_Z (Z.of_nat i)) in *.
    set (b := inject_Z (Z.of_nat j)) in *. clearbody a b. lra. }
  apply (proj1 (inject_Z_injective _ _)) in E'. lia.
Qed.

(** X24: for accepted inputs with a positive lot size and a net debit
    strictly between 0 and the distance of the strikes, the Bull Call
    Spread page shows at most one breakeven. *)
Theorem bull_call_spread_clicked_single_breakeven K1 P1 K2 P2 lot pg :
  0 < P1 -> 0 < P2 -> (0 < lot)%Z ->
  0 < P1 - P2 -> P1 - P2 < K2 - K1 ->
  exists v,
    snd (bull_call_spread_clicked K1 P1 K2 P2 lot pg) = Ok (Some v)
    /\ (length (breakevens (shown v)) <= 1)%nat.
Proof.
  intros H1 H2 Hlot Hd0 Hd1.
  assert (HK : K1 <= K2) by lra.
  assert (Hv : validate [P1; P2] [K1; K2] = true)
    by (apply validate_pair; auto).
  unfold bull_call_spread_clicked. run_page Hv payoff.
  eexists. split; [reflexivity|]. cbn [shown]. rewrite Hshown.
  destruct grid_facts as [Hglen [Hasc _]].
  apply (rising_single payoff (Np.linspace 0 5000 1000) default_tolerance);
    trivial; subst payoff; rewrite bull_call_as_map in *.
  - apply ascending_map; trivial.
    intros x y Hxy. apply bull_call_point_monotone; trivial. lia.
  - intros i j Hi Hj. rewrite length_map in Hi, Hj.
    rewrite !nth_map_Q by trivial. intros Ei Ej.
    assert (Hroot : forall S, bull_call_point K1 P1 K2 P2 lot S == 0 ->
                              S == K1 + (P1 - P2)).
    { intros S E.
      destruct (bull_call_point_sign K1 P1 K2 P2 lot S Hlot Hd0 Hd1)
        as [Hneg Hpos].
      destruct (Q_dec S (K1 + (P1 - P2))) as [[Hlt|Hgt]|Heq]; trivial.
      - specialize (Hneg Hlt). lra.
      - specialize (Hpos Hgt). lra. }
    apply grid_injective; try lia.
    now rewrite (Hroot _ Ei), (Hroot _ Ej).
Qed.

Lemma bull_call_spread_clicked_single_breakeven_witness :
  exists v,
    snd (bull_call_spread_clicked 100 5 110 2 1 []) = Ok (Some v)
    /\ (length (breakevens (shown v)) <= 1)%nat.
Proof.
  apply (bull_call_spread_clicked_single_breakeven 100 5 110 2 1 []);
    lra || lia.
Defined.

Lemma iron_condor_point_sign Kbp Pbp Ksp Psp Ksc Psc Kbc Pbc lot S :
  Ksp <= Ksc -> (0 < lot)%Z ->
  0 < Psp - Pbp + Psc - Pbc ->
  Psp - Pbp + Psc - Pbc < Ksp - Kbp ->
  Psp - Pbp + Psc - Pbc < Kbc - Ksc ->
  (S < Ksp - (Psp - Pbp + Psc - Pbc) ->
   iron_condor_point Kbp Pbp Ksp Psp Ksc Psc Kbc Pbc lot S < 0)
  /\ (Ksp - (Psp - Pbp + Psc - Pbc) < S ->
      S < Ksc + (Psp - Pbp + Psc - Pbc) ->
      0 < iron_condor_point Kbp Pbp Ksp Psp Ksc Psc Kbc Pbc lot S)
  /\ (Ksc + (Psp - Pbp + Psc - Pbc) < S ->
      iron_condor_point Kbp Pbp Ksp Psp Ksc Psc Kbc Pbc lot S < 0).
Proof.
  intros Hmid Hlot Hc0 Hcp Hcc. apply inject_Z_pos in Hlot.
  unfold iron_condor_point. repeat split; intros.
  - apply Qmult_neg_pos; trivial. split_max; lra.
  - apply Qmult_lt_0_compat; trivial. split_max; lra.
  - apply Qmult_neg_pos; trivial. split_max; lra.
Qed.

(** X25: for accepted inputs with a positive lot size and a net credit
    strictly between 0 and the width of either spread, every breakeven
    shown on the Iron Condor page is within one grid step plus the
    rounding, [5000/999 + 0.005], of one of the two true breakevens
    [sellPutStrike - netCredit] and [sellCallStrike + netCredit]. *)
Theorem iron_condor_clicked_breakevens
    Kbp Pbp Ksp Psp Ksc Psc Kbc Pbc lot pg :
  0 < Pbp /\ 0 < Psp /\ 0 < Psc /\ 0 < Pbc ->
  Ksp <= Ksc -> (0 < lot)%Z ->
  0 < Psp - Pbp + Psc - Pbc ->
  Psp - Pbp + Psc - Pbc < Ksp - Kbp ->
  Psp - Pbp + Psc - Pbc < Kbc - Ksc ->
  exists v,
    snd (iron_condor_clicked Kbp Pbp Ksp Psp Ksc Psc Kbc Pbc lot pg)
    = Ok (Some v)
    /\ forall b, In b (breakevens (shown v)) ->
         Qabs (b - (Ksp - (Psp - Pbp + Psc - Pbc)))
         <= (5000 # 999) + (1 # 200)
         \/ Qabs (b - (Ksc + (Psp - Pbp + Psc - Pbc)))
            <= (5000 # 999) + (1 # 200).
Proof.
  intros HP Hmid Hlot Hc0 Hcp Hcc.
  assert (Hv : validate [Pbp; Psp; Psc; Pbc] [Kbp; Ksp; Ksc; Kbc] = true)
    by (apply validate_quad; repeat split; try tauto; lra).
  unfold iron_condor_clicked. run_page Hv payoff.
  eexists. split; [reflexivity|]. cbn [shown]. rewrite Hshown.
  intros b Hb.
  destruct (Hbreakevens b Hb) as [_ [_ [i [Hi [Hstr [_ [Hlo [Hhi ->]]]]]]]].
  destruct grid_facts as [Hglen [Hasc _]].
  pose proof (grid_step i Hi) as Hstep.
  subst payoff. rewrite iron_condor_as_map in *.
  rewrite !nth_map_Q in Hstr by lia.
  set (grid := Np.linspace 0 5000 1000) in *.
  set (c := chord_root _ grid i) in *.
  set (credit := Psp - Pbp + Psc - Pbc) in *.
  pose proof (Hasc i ltac:(lia)) as Hseg.
  destruct (iron_condor_point_sign Kbp Pbp Ksp Psp Ksc Psc Kbc Pbc lot
              (nth i grid 0) Hmid Hlot Hc0 Hcp Hcc) as [Ha0 [Hb0 Hc0']].
  destruct (iron_condor_point_sign Kbp Pbp Ksp Psp Ksc Psc Kbc Pbc lot
              (nth (i + 1) grid 0) Hmid Hlot Hc0 Hcp Hcc)
    as [Ha1 [Hb1 Hc1']].
  fold credit in Ha0, Hb0, Hc0', Ha1, Hb1, Hc1'.
  pose proof (round2_error c) as Hr.
  apply Qabs_Qle_condition in Hr.
  unfold straddles in Hstr.
  destruct (Qlt_le_dec (nth (i + 1) grid 0) (Ksp - credit)) as [A|A].
  { pose proof (Ha1 A). pose proof (Ha0 ltac:(lra)). lra. }
  destruct (Qlt_le_dec (Ksc + credit) (nth i grid 0)) as [B|B].
  { pose proof (Hc0' B). pose proof (Hc1' ltac:(lra)). lra. }
  destruct (Qlt_le_dec (Ksp - credit) (nth i grid 0)) as [C|C].
  - destruct (Qlt_le_dec (nth (i + 1) grid 0) (Ksc + credit)) as [D|D].
    + pose proof (Hb0 C ltac:(lra)). pose proof (Hb1 ltac:(lra) D). lra.
    + right. apply Qabs_Qle_condition. split; lra.
  - left. apply Qabs_Qle_condition. split; lra.
Qed.

Lemma iron_condor_clicked_breakevens_witness :
  exists v,
    snd (iron_condor_clicked 90 2 100 5 110 5 120 2 1 []) = Ok (Some v)
    /\ forall b, In b (breakevens (shown v)) ->
         Qabs (b - (100 - (5 - 2 + 5 - 2))) <= (5000 # 999) + (1 # 200)
         \/ Qabs (b - (110 + (5 - 2 + 5 - 2))) <= (5000 # 999) + (1 # 200).
Proof.
  apply (iron_condor_clicked_breakevens 90 2 100 5 110 5 120 2 1 []);
    lra || lia.
Defined.

(** ** Segments that meet in a zero of the payoff *)

Lemma NoDupA_at_most_two (l : list Q) :
  NoDupA Qeq l ->
  (forall x y z, In x l -> In y l -> In z l -> x = y \/ y = z \/ x = z) ->
  (length l <= 2)%nat.
Proof.
  intros Hnd H.
  destruct l as [|x [|y [|z l]]]; simpl; try lia. exfalso.
  inversion Hnd as [|? ? Hx Hnd']; subst.
  inversion Hnd' as [|? ? Hy _]; subst.
  destruct (H x y z) as [E|[E|E]]; simpl; auto; subst.
  - apply Hx. now left.
  - apply Hy. now left.
  - apply Hx. right. now left.
Qed.

Lemma find_breakeven_points_NoDupA payoff spots tol bs :
  find_breakeven_points payoff spots tol = Ok bs -> NoDupA Qeq bs.
Proof.
  unfold find_breakeven_points.
  destruct (for_each _ _ _) as [r|]; cbn [bind]; [|discriminate].
  intros [= <-]. apply list_set_NoDupA.
Qed.

Section Meeting.

Variables (payoff spot_prices : Np.ndarray) (B : Q).

Hypothesis grid_rising : ascending spot_prices.

Hypothesis grid_injects :
  forall i j, (i < length spot_prices)%nat -> (j < length spot_prices)%nat ->
              nth i spot_prices 0 == nth j spot_prices 0 -> i = j.

Hypothesis zero_at_B :
  forall i, (i < length payoff)%nat ->
            nth i spot_prices 0 == B -> nth i payoff 0 == 0.

Hypothesis paired : length payoff = length spot_prices.

(** A segment that ends in a zero of the payoff and does not start in one
    has its root at its right end; one that starts in a zero has it at its
    left end. *)
Lemma chord_root_right_end i :
  nth (i + 1) payoff 0 == 0 -> ~ nth i payoff 0 == 0 ->
  chord_root payoff spot_prices i == nth (i + 1) spot_prices 0.
Proof.
  intros E1 H0. unfold chord_root. rewrite E1.
  assert (E : 0 - nth i payoff 0 == - nth i payoff 0) by ring.
  rewrite E, Qabs_opp.
  field. now apply Qabs_nonzero.
Qed.

Lemma chord_root_left_end i :
  nth i payoff 0 == 0 ->
  chord_root payoff spot_prices i == nth i spot_prices 0.
Proof.
  intros E0. unfold chord_root. rewrite E0. change (Qabs 0) with 0.
  unfold Qdiv. ring.
Qed.

(** Two segments with payoffs apart that both hold the point [B] have the
    same root. *)
Lemma meeting_roots_agree i j :
  (i < j)%nat -> (j + 1 < length payoff)%nat ->
  ~ nth (i + 1) payoff 0 - nth i payoff 0 == 0 ->
  nth i spot_prices 0 <= B -> B <= nth (i + 1) spot_prices 0 ->
  nth j spot_prices 0 <= B -> B <= nth (j + 1) spot_prices 0 ->
  chord_root payoff spot_prices i == chord_root payoff spot_prices j.
Proof.
  intros Hij Hj Hd Hi0 Hi1 Hj0 Hj1.
  pose proof (ascending_mono spot_prices (i + 1) j grid_rising
                ltac:(lia) ltac:(lia)) as Hmono.
  assert (Ei : nth (i + 1) spot_prices 0 == B) by lra.
  assert (Ej : nth j spot_prices 0 == B) by lra.
  assert (Eij : j = (i + 1)%nat).
  { symmetry. apply grid_injects; try lia. now rewrite Ei, Ej. }
  subst j.
  pose proof (zero_at_B (i + 1) ltac:(lia) Ei) as Ez.
  rewrite chord_root_right_end, chord_root_left_end; trivial.
  - reflexivity.
  - intros E0. apply Hd. rewrite Ez, E0. ring.
Qed.

End Meeting.

Lemma iron_condor_point_zero Kbp Pbp Ksp Psp Ksc Psc Kbc Pbc lot S :
  Ksp <= Ksc ->
  0 < Psp - Pbp + Psc - Pbc ->
  Psp - Pbp + Psc - Pbc < Ksp - Kbp ->
  Psp - Pbp + Psc - Pbc < Kbc - Ksc ->
  S == Ksp - (Psp - Pbp + Psc - Pbc) \/ S == Ksc + (Psp - Pbp + Psc - Pbc) ->
  iron_condor_point Kbp Pbp Ksp Psp Ksc Psc Kbc Pbc lot S == 0.
Proof.
  intros Hmid Hc0 Hcp Hcc HS. unfold iron_condor_point.
  assert (E : Qmax (Kbp - S) 0 - Pbp + (Psp - Qmax (Ksp - S) 0)
              + (Qmax (S - Kbc) 0 - Pbc + (Psc - Qmax (S - Ksc) 0)) == 0)
    by (destruct HS; split_max; lra).
  rewrite E. ring.
Qed.

(** X26: for accepted inputs with a positive lot size and a net credit
    strictly between 0 and the width of either spread, the Iron Condor
    page shows at most two breakevens. *)
Theorem iron_condor_clicked_two_breakevens
    Kbp Pbp Ksp Psp Ksc Psc Kbc Pbc lot pg :
  0 < Pbp /\ 0 < Psp /\ 0 < Psc /\ 0 < Pbc ->
  Ksp <= Ksc -> (0 < lot)%Z ->
  0 < Psp - Pbp + Psc - Pbc ->
  Psp - Pbp + Psc - Pbc < Ksp - Kbp ->
  Psp - Pbp + Psc - Pbc < Kbc - Ksc ->
  exists v,
    snd (iron_condor_clicked Kbp Pbp Ksp Psp Ksc Psc Kbc Pbc lot pg)
    = Ok (Some v)
    /\ (length (breakevens (shown v)) <= 2)%nat.
Proof.
  intros HP Hmid Hlot Hc0 Hcp Hcc.
  assert (Hv : validate [Pbp; Psp; Psc; Pbc] [Kbp; Ksp; Ksc; Kbc] = true)
    by (apply validate_quad; repeat split; try tauto; lra).
  assert (Htol : 0 <= default_tolerance) by (unfold default_tolerance; lra).
  unfold iron_condor_clicked. run_page Hv payoff.
  eexists. split; [reflexivity|]. cbn [shown]. rewrite Hshown.
  apply NoDupA_at_most_two;
    [exact (find_breakeven_points_NoDupA _ _ _ _ Hfind)|].
  destruct grid_facts as [Hglen [Hasc _]].
  set (grid := Np.linspace 0 5000 1000) in *.
  set (credit := Psp - Pbp + Psc - Pbc) in *.
  set (f := iron_condor_point Kbp Pbp Ksp Psp Ksc Psc Kbc Pbc lot).
  assert (Epay : payoff = map f grid)
    by (subst payoff; apply iron_condor_as_map).
  assert (Hnth : forall i, (i < 1000)%nat -> nth i payoff 0 = f (nth i grid 0))
    by (intros i Hi; rewrite Epay; apply nth_map_Q; lia).
  (* every recorded segment holds one of the two true breakevens *)
  assert (Hholds : forall i,
             (i + 1 < 1000)%nat ->
             straddles (nth i payoff 0) (nth (i + 1) payoff 0) ->
             (nth i grid 0 <= Ksp - credit
              /\ Ksp - credit <= nth (i + 1) grid 0)
             \/ (nth i grid 0 <= Ksc + credit
                 /\ Ksc + credit <= nth (i + 1) grid 0)).
  { intros i Hi Hstr. rewrite !Hnth in Hstr by lia.
    pose proof (Hasc i ltac:(lia)) as Hseg.
    destruct (iron_condor_point_sign Kbp Pbp Ksp Psp Ksc Psc Kbc Pbc lot
                (nth i grid 0) Hmid Hlot Hc0 Hcp Hcc) as [Ha0 [Hb0 Hc0']].
    destruct (iron_condor_point_sign Kbp Pbp Ksp Psp Ksc Psc Kbc Pbc lot
                (nth (i + 1) grid 0) Hmid Hlot Hc0 Hcp Hcc)
      as [Ha1 [Hb1 Hc1']].
    fold credit f in Ha0, Hb0, Hc0', Ha1, Hb1, Hc1'.
    unfold straddles in Hstr.
    destruct (Qlt_le_dec (nth (i + 1) grid 0) (Ksp - credit)) as [A|A].
    { pose proof (Ha1 A). pose proof (Ha0 ltac:(lra)). lra. }
    destruct (Qlt_le_dec (Ksc + credit) (nth i grid 0)) as [B|B].
    { pose proof (Hc0' B). pose proof (Hc1' ltac:(lra)). lra. }
    destruct (Qlt_le_dec (Ksp - credit) (nth i grid 0)) as [C|C].
    - destruct (Qlt_le_dec (nth (i + 1) grid 0) (Ksc + credit)) as [D|D].
      + pose proof (Hb0 C ltac:(lra)). pose proof (Hb1 ltac:(lra) D). lra.
      + right. split; lra.
    - left. split; lra. }
  (* two recorded segments that hold the same breakeven agree *)
  assert (Hagree : forall B i j,
             B == Ksp - credit \/ B == Ksc + credit ->
             (i + 1 < 1000)%nat -> (j + 1 < 1000)%nat ->
             default_tolerance < Qabs (nth (i + 1) payoff 0 - nth i payoff 0) ->
             default_tolerance < Qabs (nth (j + 1) payoff 0 - nth j payoff 0) ->
             nth i grid 0 <= B /\ B <= nth (i + 1) grid 0 ->
             nth j grid 0 <= B /\ B <= nth (j + 1) grid 0 ->
             round2 (chord_root payoff grid i)
             = round2 (chord_root payoff grid j)).
  { intros B i j HB Hi Hj Hsi Hsj [Hi0 Hi1] [Hj0 Hj1].
    assert (Hmeet : forall a b, (a < b)%nat -> (b + 1 < 1000)%nat ->
              default_tolerance
              < Qabs (nth (a + 1) payoff 0 - nth a payoff 0) ->
              nth a grid 0 <= B -> B <= nth (a + 1) grid 0 ->
              nth b grid 0 <= B -> B <= nth (b + 1) grid 0 ->
              chord_root payoff grid a == chord_root payoff grid b).
    { intros a b Hab Hb Hsa Ha0 Ha1 Hb0 Hb1.
      apply (meeting_roots_agree payoff grid B); trivial; try lia.
      - intros p q Hp Hq. apply grid_injective; lia.
      - intros k Hk Ek. rewrite Hnth by lia.
        apply iron_condor_point_zero; trivial.
        fold credit. destruct HB as [HB|HB]; [left|right];
          now rewrite Ek, HB.
      - exact (steep_nonzero _ _ Htol Hsa). }
    apply round2_comp.
    destruct (Nat.lt_trichotomy i j) as [Hlt|[->|Hlt]].
    - now apply Hmeet.
    - reflexivity.
    - symmetry. now apply Hmeet. }
  intros x y z Hx Hy Hz.
  destruct (Hbreakevens x Hx)
    as [_ [_ [i [Hi [Hsi [Hti [_ [_ ->]]]]]]]].
  destruct (Hbreakevens y Hy)
    as [_ [_ [j [Hj [Hsj [Htj [_ [_ ->]]]]]]]].
  destruct (Hbreakevens z Hz)
    as [_ [_ [k [Hk [Hsk [Htk [_ [_ ->]]]]]]]].
  destruct (Hholds i Hi Hsi) as [Bi|Bi], (Hholds j Hj Hsj) as [Bj|Bj],
    (Hholds k Hk Hsk) as [Bk|Bk].
  - left. apply (Hagree (Ksp - credit)); trivial. now left.
  - left. apply (Hagree (Ksp - credit)); trivial. now left.
  - right. right. apply (Hagree (Ksp - credit)); trivial. now left.
  - right. left. apply (Hagree (Ksc + credit)); trivial. now right.
  - right. left. apply (Hagree (Ksp - credit)); trivial. now left.
  - right. right. apply (Hagree (Ksc + credit)); trivial. now right.
  - left. apply (Hagree (Ksc + credit)); trivial. now right.
  - left. apply (Hagree (Ksc + credit)); trivial. now right.
Qed.

Lemma iron_condor_clicked_two_breakevens_witness :
  exists v,
    snd (iron_condor_clicked 90 2 100 5 110 5 120 2 1 []) = Ok (Some v)
    /\ (length (breakevens (shown v)) <= 2)%nat.
Proof.
  apply (iron_condor_clicked_two_breakevens 90 2 100 5 110 5 120 2 1 []);
    lra || lia.
Defined.
